(** * Q-table heatmap and knight's-tour renderers: a shallow embedding

    The two scripts of the repository,
    [visualize_qtable.py] and [examples/knight/visualize.py], are
    translated function by function.  Python values are modelled as
    follows.

    - [str] is [string]; a state key is a string of ASCII characters, so
      the class [\d] of the regular expression is the ten characters
      ['0'..'9'] (Python's [\d] also accepts the decimal digits of other
      scripts; such keys are outside the model).
    - [int] is [Z].  [int(s)] is total on the digit strings produced by
      the regular expression (the interpreter's configurable limit on
      the number of digits is not modelled).
    - a JSON number stored in the Q-table is a rational [Q]; the grid
      only copies and compares these numbers, it never computes with
      them.
    - the completion percentage of the knight's tour is computed in
      floating point, and is modelled so: a [float] is an IEEE 754
      binary64 number, a [spec_float] with the operations of
      [SpecFloat] at 53 bits of precision.
    - a [dict] read by [json.load] is an association list in insertion
      order; [state_coords], which the code builds itself and only looks
      up by key, is a [gmap].
    - an exception is a value [Raise e] of the type [result].
    - the calls into the plotting library are recorded, not performed:
      the artists added to the axes, the title, and the files passed to
      [savefig] with their resolution.  Memory limits and failures of
      the file system are not modelled. *)

From Stdlib Require Import ZArith QArith Qround Qabs Ascii String List Lia SpecFloat.
From stdpp Require Import base option list strings gmap pretty.

#[local] Open Scope Z_scope.

(** ** Python runtime pieces used by both scripts *)

Module Py.

Inductive exn : Set :=
| ValueError
| IndexError
| ZeroDivisionError.

Inductive result (A : Type) : Type :=
| Ok (a : A)
| Raise (e : exn).
Arguments Ok {A} a.
Arguments Raise {A} e.

Definition bind {A B : Type} (r : result A) (k : A -> result B) : result B :=
  match r with
  | Ok a => k a
  | Raise e => Raise e
  end.

Notation "'try' x ':=' r 'in' k" := (bind r (fun x => k))
  (at level 10, x name, r at level 100, k at level 200).

(** [c.isdigit()] restricted to ASCII: the class [\d]. *)
Definition is_digit (c : ascii) : bool :=
  let n := nat_of_ascii c in (48 <=? n)%nat && (n <=? 57)%nat.

Definition digit_value (c : ascii) : Z := Z.of_nat (nat_of_ascii c) - 48.

(** [int(s)] for [s] matching [-?\d+]. *)
Definition int_digits (ds : list ascii) : Z :=
  fold_left (fun acc c => 10 * acc + digit_value c) ds 0.

Definition int (s : list ascii) : Z :=
  match s with
  | c :: ds => if Ascii.eqb c "-" then - int_digits ds else int_digits s
  | [] => 0
  end.

(** The greedy [\d*] at the head of the subject: the digits it
    consumes. *)
Fixpoint take_digits (s : list ascii) : list ascii :=
  match s with
  | c :: r => if is_digit c then c :: take_digits r else []
  | [] => []
  end.

(** One attempt of the pattern [-?\d+] at the head of the subject.  The
    optional sign is tried first; when no digit follows it the engine
    backtracks to the empty alternative, where [\d+] faces the sign
    itself and fails. *)
Definition match_here (s : list ascii) : option (list ascii) :=
  match s with
  | c :: r =>
      if Ascii.eqb c "-" then
        match take_digits r with
        | [] => None
        | ds => Some (c :: ds)
        end
      else
        match take_digits s with
        | [] => None
        | ds => Some ds
        end
  | [] => None
  end.

(** [re.findall(r'-?\d+', s)]: the subject is scanned from left to right;
    a match at the current position is recorded and the scan resumes at
    its end ([skip] counts the characters of the last match still to be
    passed over); otherwise the scan moves one character on. *)
Fixpoint findall_from (skip : nat) (s : list ascii) : list (list ascii) :=
  match s with
  | [] => []
  | _ :: r =>
      match skip with
      | S k => findall_from k r
      | O =>
          match match_here s with
          | Some m => m :: findall_from (length m - 1)%nat r
          | None => findall_from 0 r
          end
      end
  end.

Definition findall (s : string) : list (list ascii) :=
  findall_from 0 (list_ascii_of_string s).

(** [max(xs)] for a non-empty iterable: the first of the greatest
    items. *)
Fixpoint max_from (cur : Q) (xs : list Q) : Q :=
  match xs with
  | [] => cur
  | x :: r => max_from (if Qle_bool x cur then cur else x) r
  end.

Definition max (xs : list Q) : result Q :=
  match xs with
  | [] => Raise ValueError
  | x :: r => Ok (max_from x r)
  end.

(** [range(n)] *)
Definition range (n : Z) : list Z := map Z.of_nat (seq 0 (Z.to_nat n)).

(** [l[i]] on a list: negative indices count from the end. *)
Definition getitem {A : Type} (l : list A) (i : Z) : result A :=
  let n := Z.of_nat (length l) in
  let j := if i <? 0 then n + i else i in
  if (0 <=? j) && (j <? n)
  then match l !! Z.to_nat j with Some a => Ok a | None => Raise IndexError end
  else Raise IndexError.

(** [str(n)] for an integer. *)
Definition str (n : Z) : string := pretty n.

(** Whether [p] is a prefix of [s]. *)
Fixpoint startswith (p s : list ascii) : bool :=
  match p, s with
  | [], _ => true
  | a :: p', b :: s' => Ascii.eqb a b && startswith p' s'
  | _ :: _, [] => false
  end.

(** [s.replace(old, new)] for a non-empty [old]: every occurrence met in
    a scan from left to right is replaced, and the scan resumes after
    the occurrence ([skip] counts its characters still to be passed
    over). *)
Fixpoint replace_from (skip : nat) (old new s : list ascii) : list ascii :=
  match s with
  | [] => []
  | c :: r =>
      match skip with
      | S k => replace_from k old new r
      | O =>
          if startswith old s
          then new ++ replace_from (length old - 1)%nat old new r
          else c :: replace_from 0 old new r
      end
  end.

(** [s.replace(old, new)]; an empty [old] matches before every character
    and at the end. *)
Definition replace (s old new : string) : string :=
  let o := list_ascii_of_string old in
  let n := list_ascii_of_string new in
  let l := list_ascii_of_string s in
  string_of_list_ascii
    match o with
    | [] => n ++ flat_map (fun c => c :: n) l
    | _ :: _ => replace_from 0 o n l
    end.

(** *** Floats

    A [float] is an IEEE 754 binary64 number, [spec_float] with 53 bits
    of precision.  Integers below [2^53] in absolute value are converted
    exactly, and on that range [truediv] is the interpreter's division,
    the correctly rounded quotient; larger integers are outside the
    model. *)

Definition prec : Z := 53.
Definition emax : Z := 1024.

(** [float(n)] *)
Definition float_of_int (n : Z) : spec_float := binary_normalize prec emax n 0 false.

(** [a / b] on integers *)
Definition truediv (a b : Z) : result spec_float :=
  if b =? 0 then Raise ZeroDivisionError
  else Ok (SFdiv prec emax (float_of_int a) (float_of_int b)).

(** [x * n] for a float [x] and an integer [n] *)
Definition fmul_int (x : spec_float) (n : Z) : spec_float :=
  SFmul prec emax x (float_of_int n).

(** The integer nearest to [10 * m * 2^e], ties to even: the digits of a
    correctly rounded conversion to one decimal place. *)
Definition tenths (m : positive) (e : Z) : Z :=
  if 0 <=? e then 10 * Z.pos m * 2 ^ e
  else
    let n := 10 * Z.pos m in
    let d := 2 ^ (- e) in
    let q := n / d in
    let r := n mod d in
    if 2 * r <? d then q
    else if d <? 2 * r then q + 1
    else if Z.even q then q else q + 1.

Definition sign_str (s : bool) : string := if s then "-" else "".

(** [format(x, '.1f')] *)
Definition format_1f (x : spec_float) : string :=
  match x with
  | S754_zero s => sign_str s +:+ "0.0"
  | S754_infinity s => sign_str s +:+ "inf"
  | S754_nan => "nan"
  | S754_finite s m e =>
      let n := tenths m e in
      sign_str s +:+ str (n / 10) +:+ "." +:+ str (n mod 10)
  end.

End Py.

Import Py.

(** ** visualize_qtable.py *)

Module QTable.

(** A value of the loaded JSON object: a number, or a mapping from action
    names to numbers (in insertion order). *)
Inductive qvalue : Type :=
| Scalar (q : Q)
| Actions (value : list (string * Q)).

Definition qtable : Type := list (string * qvalue).

(** A two-dimensional [numpy] array of floats. *)
Record ndarray : Type := mk_ndarray {
  shape : Z * Z;
  data : list (list Q)
}.

Definition parse_grid_state (state_str : string) : option (Z * Z) :=
  match findall state_str with
  | n0 :: n1 :: _ => Some (int n0, int n1)
  | _ => None
  end.

(** [np.zeros(shape)]: a negative dimension is refused. *)
Definition np_zeros (sh : Z * Z) : result ndarray :=
  let '(rows, cols) := sh in
  if (0 <=? rows) && (0 <=? cols)
  then Ok (mk_ndarray sh (replicate (Z.to_nat rows) (replicate (Z.to_nat cols) 0%Q)))
  else Raise ValueError.

(** An index [i] into an axis of length [n]: negative indices count from
    the end, anything outside [-n, n) is an [IndexError]. *)
Definition np_index (n i : Z) : result nat :=
  if (0 <=? i) && (i <? n) then Ok (Z.to_nat i)
  else if (- n <=? i) && (i <? 0) then Ok (Z.to_nat (n + i))
  else Raise IndexError.

(** [grid[y, x] = v] *)
Definition np_setitem (grid : ndarray) (y x : Z) (v : Q) : result ndarray :=
  try i := np_index (fst (shape grid)) y in
  try j := np_index (snd (shape grid)) x in
  Ok (mk_ndarray (shape grid) (alter (fun row => <[j := v]> row) i (data grid))).

(** [grid[y, x]] *)
Definition np_getitem (grid : ndarray) (y x : Z) : result Q :=
  try i := np_index (fst (shape grid)) y in
  try j := np_index (snd (shape grid)) x in
  match data grid !! i with
  | Some row => match row !! j with Some v => Ok v | None => Raise IndexError end
  | None => Raise IndexError
  end.

(** The state of the first loop. *)
Record scan : Type := mk_scan {
  state_coords : gmap string (Z * Z);
  max_x : Z;
  max_y : Z
}.

(** [for state_key in qtable_data.keys(): ...] *)
Fixpoint scan_keys (keys : list string) (st : scan) : scan :=
  match keys with
  | [] => st
  | state_key :: rest =>
      scan_keys rest
        match parse_grid_state state_key with
        | Some (x, y) =>
            mk_scan (<[state_key := (x, y)]> (state_coords st))
                    (Z.max (max_x st) x) (Z.max (max_y st) y)
        | None => st
        end
  end.

(** [max(value.values()) if value else 0] for a mapping, the value
    itself otherwise. *)
Definition max_q (value : qvalue) : result Q :=
  match value with
  | Actions [] => Ok 0%Q
  | Actions m => Py.max (map snd m)
  | Scalar q => Ok q
  end.

(** [for state_key, value in qtable_data.items(): ...] *)
Fixpoint fill (coords : gmap string (Z * Z)) (grid_shape : Z * Z)
    (items : qtable) (grid : ndarray) : result ndarray :=
  match items with
  | [] => Ok grid
  | (state_key, value) :: rest =>
      match coords !! state_key with
      | Some (x, y) =>
          if (0 <=? y) && (y <? fst grid_shape) && ((0 <=? x) && (x <? snd grid_shape))
          then
            try q := max_q value in
            try grid' := np_setitem grid y x q in
            fill coords grid_shape rest grid'
          else fill coords grid_shape rest grid
      | None => fill coords grid_shape rest grid
      end
  end.

Definition qtable_to_grid (qtable_data : qtable) (grid_shape : option (Z * Z))
    : result ndarray :=
  let st := scan_keys (map fst qtable_data) (mk_scan ∅ 0 0) in
  let grid_shape :=
    match grid_shape with
    | None => (max_y st + 1, max_x st + 1)
    | Some sh => sh
    end in
  try grid := np_zeros grid_shape in
  fill (state_coords st) grid_shape qtable_data grid.

(** The command line after [argparse]: an absent option is [None]. *)
Record args : Type := mk_args {
  json_file : string;
  output : option string;
  rows : option Z;
  cols : option Z;
  title : string
}.

(** Truth value of an optional integer: [None] and [0] are false. *)
Definition truthy (o : option Z) : bool :=
  match o with
  | Some n => negb (n =? 0)
  | None => false
  end.

(** The [grid_shape] that [main] passes on. *)
Definition main_grid_shape (a : args) : option (Z * Z) :=
  if truthy (rows a) && truthy (cols a)
  then match rows a, cols a with
       | Some r, Some c => Some (r, c)
       | _, _ => None
       end
  else None.

End QTable.

(** ** examples/knight/visualize.py *)

Module Knight.

(** The loaded JSON document. *)
Record tour : Type := mk_tour {
  board_size : Z;
  start : Z * Z;
  path : list (Z * Z);
  visited_squares : Z;
  total_squares : Z
}.

(** What is drawn on the axes: a unit square added with [add_patch], a
    text placed with [ax.text] ([bbox] tells whether it stands in the
    red circle of a step number), an arrow drawn with [ax.annotate] from
    [xytext] to [xy].  Positions are the cell coordinate plus a fixed
    offset, kept as exact rationals. *)
Inductive artist : Type :=
| Rectangle (xy : Z * Z) (facecolor : string)
| Text (x y : Q) (s : string) (color : string) (bbox : bool)
| Arrow (xytext xy : Q * Q).

(** The outcome of a run: the artists in the order they were added, the
    title, and the calls of [savefig] with their path and dpi. *)
Record figure : Type := mk_figure {
  artists : list artist;
  title : string;
  saved : list (string * Z)
}.

(** [c + d] for a cell coordinate [c] and an offset [d] *)
Definition off (c : Z) (d : Q) : Q := (inject_Z c + d)%Q.

(** [for x in range(N): for y in range(N): ...] *)
Definition draw_board (N : Z) : list artist :=
  flat_map (fun x =>
    map (fun y =>
           Rectangle (x, y) (if (x + y) mod 2 =? 0 then "#F0D9B5" else "#B58863"))
        (range N))
    (range N).

(** [for i in range(len(path) - 1): ...] *)
Fixpoint draw_path (path : list (Z * Z)) (idx : list Z) (ax : list artist)
    : result (list artist) :=
  match idx with
  | [] => Ok ax
  | i :: rest =>
      try p0 := getitem path i in
      try p1 := getitem path (i + 1) in
      let '(x0, y0) := p0 in
      let '(x1, y1) := p1 in
      let ax := ax ++ [Arrow (off x0 (1 # 2), off y0 (1 # 2)) (off x1 (1 # 2), off y1 (1 # 2))] in
      let ax :=
        if 0 <? i
        then ax ++ [Text (off x0 (15 # 100)) (off y0 (85 # 100)) (str (i + 1)) "white" true]
        else ax in
      draw_path path rest ax
  end.

(** [if len(path) > 1: ...] *)
Definition draw_end (path : list (Z * Z)) (ax : list artist) : result (list artist) :=
  if 1 <? Z.of_nat (length path) then
    try p := getitem path (-1) in
    let '(fx, fy) := p in
    Ok (ax ++ [Text (off fx (1 # 2)) (off fy (1 # 2)) "E" "darkred" false;
               Text (off fx (15 # 100)) (off fy (85 # 100))
                    (str (Z.of_nat (length path))) "white" true])
  else Ok ax.

Definition newline : string := String (ascii_of_nat 10) "".

(** [completion_pct = (visited / total) * 100] *)
Definition completion_pct (visited total : Z) : result spec_float :=
  try r := truediv visited total in
  Ok (fmul_int r 100).

(** The two f-strings of the title, given the rendered percentage. *)
Definition title_text (N visited total : Z) (pct : string) : string :=
  "Knight's Tour via Q-learning (" +:+ str N +:+ "×" +:+ str N +:+ " board)" +:+ newline
  +:+ "Path length: " +:+ str visited +:+ "/" +:+ str total
  +:+ " (" +:+ pct +:+ "% complete)".

(** The drawing part of [visualize_knight_tour]: the board, the start
    mark, the path and the end mark. *)
Definition draw_tour (data : tour) : result (list artist) :=
  let N := board_size data in
  let path := path data in
  let ax := draw_board N in
  let ax := ax ++ [Text (off (fst (start data)) (1 # 2)) (off (snd (start data)) (1 # 2))
                        "S" "darkgreen" false] in
  try ax := draw_path path (range (Z.of_nat (length path) - 1)) ax in
  draw_end path ax.

Definition visualize_knight_tour (data : tour) (output_path : string) : result figure :=
  let N := board_size data in
  try ax := draw_tour data in
  let visited := visited_squares data in
  let total := total_squares data in
  try completion_pct := completion_pct visited total in
  let title := title_text N visited total (format_1f completion_pct) in
  let saved := [(output_path, 150)] in
  let hq_path := replace output_path ".png" "_hq.png" in
  let saved := saved ++ [(hq_path, 300)] in
  Ok (mk_figure ax title saved).

End Knight.

(** * Vocabulary of the statements *)

Import QTable.
Import Knight.

(** The cell [(y, x)] lies inside an array of shape [sh]. *)
Definition in_bounds (sh : Z * Z) (x y : Z) : Prop :=
  (0 <= y < fst sh) /\ (0 <= x < snd sh).

Definition in_boundsb (sh : Z * Z) (x y : Z) : bool :=
  (0 <=? y) && (y <? fst sh) && ((0 <=? x) && (x <? snd sh)).

(** The rows of the array agree with its shape. *)
Record wf (g : ndarray) : Prop := mk_wf {
  wf_nonneg : 0 <= fst (shape g) /\ 0 <= snd (shape g);
  wf_rows : length (data g) = Z.to_nat (fst (shape g));
  wf_cols : Forall (fun row => length row = Z.to_nat (snd (shape g))) (data g)
}.

(** The content of the cell, read directly from the rows. *)
Definition cell (g : ndarray) (y x : Z) : option Q :=
  match data g !! Z.to_nat y with
  | Some row => row !! Z.to_nat x
  | None => None
  end.

Definition set_cell (g : ndarray) (y x : Z) (v : Q) : ndarray :=
  mk_ndarray (shape g)
    (alter (fun row => <[Z.to_nat x := v]> row) (Z.to_nat y) (data g)).


(** The reduction computed by [max_q], as a total function. *)
Definition reduce (value : qvalue) : Q :=
  match max_q value with
  | Ok q => q
  | Raise _ => 0%Q
  end.

(** The coordinates of the parseable keys, in the order of traversal. *)
Definition parsed (keys : list string) : list (Z * Z) :=
  omap parse_grid_state keys.

(** The second loop with the look-up in [state_coords] replaced by the
    parse of the key: what [fill] computes once the first loop has seen
    every key. *)
Fixpoint paint (sh : Z * Z) (items : qtable) (grid : ndarray) : result ndarray :=
  match items with
  | [] => Ok grid
  | (state_key, value) :: rest =>
      match parse_grid_state state_key with
      | Some (x, y) =>
          if in_boundsb sh x y
          then
            try q := max_q value in
            try grid' := np_setitem grid y x q in
            paint sh rest grid'
          else paint sh rest grid
      | None => paint sh rest grid
      end
  end.

(** The shape [qtable_to_grid] allocates. *)
Definition resolved_shape (qtable_data : qtable) (grid_shape : option (Z * Z)) : Z * Z :=
  match grid_shape with
  | Some sh => sh
  | None =>
      (fold_left Z.max (map snd (parsed (map fst qtable_data))) 0 + 1,
       fold_left Z.max (map fst (parsed (map fst qtable_data))) 0 + 1)
  end.


(** The number the second loop leaves for the cell [(x, y)]: the
    reduction of the last item whose key parses to [(x, y)]. *)
Fixpoint last_write (items : qtable) (x y : Z) : option Q :=
  match items with
  | [] => None
  | (k, v) :: rest =>
      match last_write rest x y with
      | Some q => Some q
      | None => if decide (parse_grid_state k = Some (x, y)) then Some (reduce v) else None
      end
  end.

(** A shape [np.zeros] accepts. *)
Definition valid_shape (grid_shape : option (Z * Z)) : Prop :=
  match grid_shape with
  | Some (rows, cols) => 0 <= rows /\ 0 <= cols
  | None => True
  end.

Definition example_qtable : qtable :=
  [ ("(0,0)"%string, Scalar 1);
    ("(1,0)"%string, Actions [("up"%string, 2%Q); ("down"%string, (1 # 2)%Q)]);
    ("(0,1)"%string, Scalar 3) ].

(** The greatest element of a list, when it has one. *)
Fixpoint maximum (l : list Z) : option Z :=
  match l with
  | [] => None
  | z :: r =>
      match maximum r with
      | Some m => Some (Z.max z m)
      | None => Some z
      end
  end.

(** The x and the y coordinates of the parseable keys of a Q-table. *)
Definition parsed_xs (qtable_data : qtable) : list Z :=
  map fst (parsed (map fst qtable_data)).
Definition parsed_ys (qtable_data : qtable) : list Z :=
  map snd (parsed (map fst qtable_data)).

(** Grid sizing as the specification words it: without an explicit
    shape the height is the greatest parsed y plus one and the width is
    the greatest parsed x plus one. *)
Definition inferred_shape_is_max_plus_one (qtable_data : qtable) : Prop :=
  forall mx my,
    maximum (parsed_xs qtable_data) = Some mx ->
    maximum (parsed_ys qtable_data) = Some my ->
    exists grid,
      qtable_to_grid qtable_data None = Ok grid /\ shape grid = (my + 1, mx + 1).

(** The maximum as the code takes it, starting from zero. *)
Definition maximum_from_zero (l : list Z) : Z :=
  match maximum l with
  | Some m => Z.max 0 m
  | None => 0
  end.






(** The arrow from the centre of one cell to the centre of another. *)
Definition arrow_between (p0 p1 : Z * Z) : artist :=
  Arrow (off (fst p0) (1 # 2), off (snd p0) (1 # 2))
        (off (fst p1) (1 # 2), off (snd p1) (1 # 2)).

(** The step number [n] in the corner of a cell. *)
Definition step_number (p : Z * Z) (n : Z) : artist :=
  Text (off (fst p) (15 # 100)) (off (snd p) (85 # 100)) (str n) "white" true.


(** What the loop over the path draws, by recursion on the path: [i] is
    the index of its first cell. *)
Fixpoint path_artists (i : Z) (path : list (Z * Z)) : list artist :=
  match path with
  | [] => []
  | p0 :: rest =>
      match rest with
      | [] => []
      | p1 :: _ =>
          arrow_between p0 p1
          :: (if 0 <? i then [step_number p0 (i + 1)] else [])
          ++ path_artists (i + 1) rest
      end
  end.

(** What is drawn for the last cell of a path of two or more cells. *)
Definition end_artists (path : list (Z * Z)) : list artist :=
  if 1 <? Z.of_nat (length path) then
    match list.last path with
    | Some p =>
        [Text (off (fst p) (1 # 2)) (off (snd p) (1 # 2)) "E" "darkred" false;
         step_number p (Z.of_nat (length path))]
    | None => []
    end
  else [].

(** Everything that is drawn for a document. *)
Definition tour_artists (data : tour) : list artist :=
  ((draw_board (board_size data)
    ++ [Text (off (fst (start data)) (1 # 2)) (off (snd (start data)) (1 # 2))
             "S" "darkgreen" false])
   ++ path_artists 0 (path data))
  ++ end_artists (path data).

(** A path of [n] cells that walks a board of side [N] row by row. *)
Definition row_by_row (N n : Z) : list (Z * Z) :=
  map (fun i => (i mod N, i / N)) (range n).

(** The double the title reports. *)
Definition pct_double (visited total : Z) : spec_float :=
  SFmul prec emax (SFdiv prec emax (float_of_int visited) (float_of_int total))
    (float_of_int 100).


(** Replacement of a suffix, in the words of the specification: when [s]
    ends with [old] that ending is replaced by [new]. *)
Definition replace_suffix (s old new : string) : string :=
  let l := rev (list_ascii_of_string s) in
  let o := rev (list_ascii_of_string old) in
  if startswith o l
  then string_of_list_ascii (rev (drop (length o) l)) +:+ new
  else s.

(** How a tie between two tenths is broken. *)
Inductive tie : Set := TieEven | TieUp.

(** The integer nearest to a rational. *)
Definition round_nearest (r : tie) (q : Q) : Z :=
  let f := Qfloor q in
  match (q - inject_Z f ?= 1 # 2)%Q with
  | Lt => f
  | Gt => f + 1
  | Eq => match r with
          | TieEven => if Z.even f then f else f + 1
          | TieUp => f + 1
          end
  end.

(** A rational rendered with one decimal place. *)
Definition one_decimal (r : tie) (q : Q) : string :=
  let n := round_nearest r (10 * Qabs q) in
  (if Qle_bool 0 q then "" else "-") +:+ str (n / 10) +:+ "." +:+ str (n mod 10).

(** The percentage as the specification words it: the title shows
    100 * visited / total with one decimal place. *)
Definition pct_is_exact_quotient (data : tour) (output_path : string) : Prop :=
  exists fig r,
    visualize_knight_tour data output_path = Ok fig /\
    title fig =
      title_text (board_size data) (visited_squares data) (total_squares data)
        (one_decimal r
           (inject_Z 100 * inject_Z (visited_squares data)
            / inject_Z (total_squares data))).

(** [n] tenths is as near to [m * 2^e] as a whole number of tenths can
    be: the two differ by at most one twentieth. *)
Definition is_nearest_tenths (m : positive) (e n : Z) : Prop :=
  if 0 <=? e then n = 10 * Z.pos m * 2 ^ e
  else 2 * Z.abs (n * 2 ^ (- e) - 10 * Z.pos m) <= 2 ^ (- e).

(** The text [t] is the double [x] rendered with one decimal place: the
    sign of [x], a whole part, the point and a single digit, which
    together are the nearest tenth of [x]. *)
Definition one_decimal_of (x : spec_float) (t : string) : Prop :=
  exists s w d,
    0 <= w /\ 0 <= d <= 9 /\
    String.length (str d) = 1%nat /\
    t = sign_str s +:+ str w +:+ "." +:+ str d /\
    match x with
    | S754_zero s' => s = s' /\ w = 0 /\ d = 0
    | S754_finite s' m e => s = s' /\ is_nearest_tenths m e (10 * w + d)
    | _ => False
    end.

(** A zero, or a finite double with mantissa below [2^D] and exponent
    between [L] and [E]. *)
Definition within (D L E : Z) (x : spec_float) : Prop :=
  match x with
  | S754_zero _ => True
  | S754_finite _ m e => Z.pos m < 2 ^ D /\ L <= e <= E
  | _ => False
  end.

(** * The rest of the two scripts *)

(** ** visualize_qtable.py: the heatmap and the command line *)

Module Heatmap.






(** Truth value of an optional string: [None] and [""] are false. *)
Definition given (o : option string) : bool :=
  match o with
  | Some s => negb (String.eqb s "")
  | None => false
  end.



End Heatmap.

(** ** examples/knight/visualize.py: the script *)

Module KnightScript.




End KnightScript.

(** The fill colour of the square [(x, y)]. *)
Definition square_color (x y : Z) : string :=
  if Z.even (x + y) then "#F0D9B5" else "#B58863".

Definition is_rectangle (a : artist) : bool :=
  match a with
  | Rectangle _ _ => true
  | _ => false
  end.

(** A mark is a text that is not in a circle: the "S" and the "E". *)
Definition is_mark (a : artist) : bool :=
  match a with
  | Text _ _ _ _ false => true
  | _ => false
  end.

(** The mark [s] in the middle of the cell [p]. *)
Definition mark (p : Z * Z) (s color : string) : artist :=
  Text (off (fst p) (1 # 2)) (off (snd p) (1 # 2)) s color false.



(** A value in the simplified format: the number [max_q] reduces it
    to. *)
Definition flat_value (value : qvalue) : qvalue :=
  match max_q value with
  | Ok q => Scalar q
  | Raise _ => value
  end.

(** A table in the simplified format [{state: max_q_value}]. *)
Definition flat_table (qtable_data : qtable) : qtable :=
  map (fun item => (fst item, flat_value (snd item))) qtable_data.

(** Items whose keys parse to the same cell carry values with the same
    reduction; this holds in particular when no two keys parse to the
    same cell. *)
Definition cells_agree (qtable_data : qtable) : Prop :=
  forall k1 v1 k2 v2 c,
    In (k1, v1) qtable_data -> In (k2, v2) qtable_data ->
    parse_grid_state k1 = Some c -> parse_grid_state k2 = Some c ->
    reduce v1 = reduce v2.

(** * Properties of the Q-table script *)

Section ArrayFacts.

Lemma in_boundsb_spec sh x y : in_boundsb sh x y = true <-> in_bounds sh x y.
Proof. unfold in_boundsb, in_bounds. lia. Qed.

Lemma in_boundsb_false sh x y : in_boundsb sh x y = false <-> ~ in_bounds sh x y.
Proof. rewrite <- in_boundsb_spec. destruct (in_boundsb sh x y); intuition congruence. Qed.

Lemma np_index_in n i : 0 <= i < n -> np_index n i = Ok (Z.to_nat i).
Proof.
  intros H. unfold np_index.
  destruct (0 <=? i) eqn:E1; [|lia]. destruct (i <? n) eqn:E2; [|lia]. reflexivity.
Qed.

Lemma np_zeros_ok r c :
  0 <= r -> 0 <= c ->
  np_zeros (r, c) =
    Ok (mk_ndarray (r, c) (replicate (Z.to_nat r) (replicate (Z.to_nat c) 0%Q))).
Proof.
  intros Hr Hc. unfold np_zeros.
  destruct (0 <=? r) eqn:E1; [|lia]. destruct (0 <=? c) eqn:E2; [|lia]. reflexivity.
Qed.

Lemma np_zeros_neg r c : r < 0 \/ c < 0 -> np_zeros (r, c) = Raise ValueError.
Proof.
  intros H. unfold np_zeros.
  destruct (0 <=? r) eqn:E1; destruct (0 <=? c) eqn:E2; try reflexivity; lia.
Qed.

Lemma wf_zeros r c :
  0 <= r -> 0 <= c ->
  wf (mk_ndarray (r, c) (replicate (Z.to_nat r) (replicate (Z.to_nat c) 0%Q))).
Proof.
  intros Hr Hc. split; simpl.
  - lia.
  - apply length_replicate.
  - apply Forall_replicate, length_replicate.
Qed.

Lemma cell_zeros r c x y :
  in_bounds (r, c) x y ->
  cell (mk_ndarray (r, c) (replicate (Z.to_nat r) (replicate (Z.to_nat c) 0%Q))) y x
  = Some 0%Q.
Proof.
  intros [Hy Hx]. simpl in *. unfold cell. simpl.
  rewrite lookup_replicate_2 by lia.
  apply lookup_replicate_2. lia.
Qed.


Lemma np_setitem_in g x y v :
  in_bounds (shape g) x y -> np_setitem g y x v = Ok (set_cell g y x v).
Proof.
  intros [Hy Hx]. unfold np_setitem.
  rewrite (np_index_in _ _ Hy), (np_index_in _ _ Hx). reflexivity.
Qed.

Lemma wf_set_cell g x y v : wf g -> wf (set_cell g y x v).
Proof.
  intros [Hn Hr Hc]. split; simpl.
  - exact Hn.
  - rewrite length_alter. exact Hr.
  - apply Forall_alter; [exact Hc|]. intros row _ Hlen. rewrite length_insert. exact Hlen.
Qed.

Lemma cell_set_same g x y v :
  wf g -> in_bounds (shape g) x y -> cell (set_cell g y x v) y x = Some v.
Proof.
  intros [Hn Hr Hc] [Hy Hx]. unfold cell, set_cell. simpl.
  destruct (lookup_lt_is_Some_2 (data g) (Z.to_nat y)) as [row Hrow]; [lia|].
  rewrite list_lookup_alter_eq, Hrow. simpl.
  assert (Hlen : length row = Z.to_nat (snd (shape g))).
  { rewrite Forall_forall in Hc. apply Hc. eapply list_elem_of_lookup_2, Hrow. }
  apply list_lookup_insert_eq. lia.
Qed.

Lemma cell_set_other g x y x' y' v :
  0 <= x -> 0 <= y -> 0 <= x' -> 0 <= y' ->
  (x', y') <> (x, y) -> cell (set_cell g y x v) y' x' = cell g y' x'.
Proof.
  intros Hx Hy Hx' Hy' Hne. unfold cell, set_cell. simpl.
  destruct (decide (Z.to_nat y = Z.to_nat y')) as [E|E].
  - rewrite E, list_lookup_alter_eq.
    destruct (data g !! Z.to_nat y') as [row|]; simpl; [|reflexivity].
    apply list_lookup_insert_ne. intros E'. apply Hne. f_equal; lia.
  - rewrite list_lookup_alter_ne by exact E. reflexivity.
Qed.

End ArrayFacts.

Section GridFacts.


Lemma max_q_reduce value : max_q value = Ok (reduce value).
Proof. unfold reduce. destruct value as [q|[|[a q] m]]; reflexivity. Qed.


Lemma scan_keys_app a b st : scan_keys (a ++ b) st = scan_keys b (scan_keys a st).
Proof. revert st. induction a as [|k a IH]; intros st; simpl; [reflexivity|apply IH]. Qed.

Lemma scan_coords keys : forall st k,
  state_coords (scan_keys keys st) !! k =
    if decide (k ∈ keys)
    then match parse_grid_state k with
         | Some c => Some c
         | None => state_coords st !! k
         end
    else state_coords st !! k.
Proof.
  induction keys as [|a keys IH]; intros st k; simpl.
  - destruct (decide (k ∈ [])) as [H|_]; [|reflexivity]. now apply elem_of_nil in H.
  - rewrite IH. clear IH.
    destruct (decide (a = k)) as [->|Hne].
    + destruct (decide (k ∈ k :: keys)) as [_|n]; [|exfalso; apply n; left].
      destruct (parse_grid_state k) as [[x y]|] eqn:E.
      * destruct (decide (k ∈ keys)); [reflexivity|]. simpl. apply lookup_insert_eq.
      * destruct (decide (k ∈ keys)); reflexivity.
    + assert (Hst : state_coords
                (match parse_grid_state a with
                 | Some (x, y) =>
                     mk_scan (<[a := (x, y)]> (state_coords st))
                       (Z.max (max_x st) x) (Z.max (max_y st) y)
                 | None => st
                 end) !! k = state_coords st !! k).
      { destruct (parse_grid_state a) as [[x y]|]; [|reflexivity].
        simpl. apply lookup_insert_ne. exact Hne. }
      rewrite Hst.
      destruct (decide (k ∈ keys)) as [i|n], (decide (k ∈ a :: keys)) as [i'|n'];
        try reflexivity.
      * exfalso. apply n'. now right.
      * exfalso. apply elem_of_cons in i' as [->|?]; [now apply Hne|now apply n].
Qed.

Lemma scan_coords_init keys k :
  In k keys ->
  state_coords (scan_keys keys (mk_scan ∅ 0 0)) !! k = parse_grid_state k.
Proof.
  intros Hin. rewrite scan_coords.
  destruct (decide (k ∈ keys)) as [_|n]; [|exfalso; now apply n, list_elem_of_In].
  simpl. destruct (parse_grid_state k); [reflexivity|apply lookup_empty].
Qed.

Lemma scan_max_x keys : forall st,
  max_x (scan_keys keys st) = fold_left Z.max (map fst (parsed keys)) (max_x st).
Proof.
  induction keys as [|a keys IH]; intros st; simpl; [reflexivity|].
  rewrite IH. unfold parsed. simpl.
  destruct (parse_grid_state a) as [[x y]|]; reflexivity.
Qed.

Lemma scan_max_y keys : forall st,
  max_y (scan_keys keys st) = fold_left Z.max (map snd (parsed keys)) (max_y st).
Proof.
  induction keys as [|a keys IH]; intros st; simpl; [reflexivity|].
  rewrite IH. unfold parsed. simpl.
  destruct (parse_grid_state a) as [[x y]|]; reflexivity.
Qed.

Lemma fold_max_ge l : forall a, a <= fold_left Z.max l a.
Proof.
  induction l as [|b l IH]; intros a; simpl; [lia|].
  specialize (IH (Z.max a b)). lia.
Qed.

Lemma fold_max_upper l : forall a z, In z l -> z <= fold_left Z.max l a.
Proof.
  induction l as [|b l IH]; intros a z; simpl; [tauto|].
  intros [<-|Hin]; [|now apply IH].
  pose proof (fold_max_ge l (Z.max a b)). lia.
Qed.

Lemma fold_max_attained l : forall a,
  fold_left Z.max l a = a \/ In (fold_left Z.max l a) l.
Proof.
  induction l as [|b l IH]; intros a; simpl; [now left|].
  destruct (IH (Z.max a b)) as [E|Hin]; [|now right; right].
  rewrite E. destruct (Z.max_spec a b) as [[_ ->]|[_ ->]]; [right; now left|now left].
Qed.

Lemma fill_paint coords sh items : forall grid,
  (forall k v, In (k, v) items -> coords !! k = parse_grid_state k) ->
  fill coords sh items grid = paint sh items grid.
Proof.
  induction items as [|[k v] items IH]; intros grid H; simpl; [reflexivity|].
  rewrite (H k v) by now left.
  assert (H' : forall k v, In (k, v) items -> coords !! k = parse_grid_state k).
  { intros k' v' Hin. apply (H k' v'). now right. }
  destruct (parse_grid_state k) as [[x y]|]; [|now apply IH].
  unfold in_boundsb.
  destruct ((0 <=? y) && (y <? sh.1) && ((0 <=? x) && (x <? sh.2))); [|now apply IH].
  destruct (max_q v) as [q|e]; simpl; [|reflexivity].
  destruct (np_setitem grid y x q) as [g'|e]; simpl; [|reflexivity].
  now apply IH.
Qed.

Lemma qtable_to_grid_paint qtable_data grid_shape :
  qtable_to_grid qtable_data grid_shape =
    try grid := np_zeros (resolved_shape qtable_data grid_shape) in
    paint (resolved_shape qtable_data grid_shape) qtable_data grid.
Proof.
  unfold qtable_to_grid.
  assert (E : match grid_shape with
              | Some sh => sh
              | None => (max_y (scan_keys (map fst qtable_data) (mk_scan ∅ 0 0)) + 1,
                         max_x (scan_keys (map fst qtable_data) (mk_scan ∅ 0 0)) + 1)
              end = resolved_shape qtable_data grid_shape).
  { destruct grid_shape; [reflexivity|]. simpl. now rewrite scan_max_x, scan_max_y. }
  cbv zeta. rewrite E.
  destruct (np_zeros (resolved_shape qtable_data grid_shape)) as [grid|e]; simpl; [|reflexivity].
  apply fill_paint. intros k v Hin. apply scan_coords_init.
  apply in_map_iff. exists (k, v). split; [reflexivity|exact Hin].
Qed.



Lemma paint_cells items : forall grid,
  wf grid ->
  exists grid',
    paint (shape grid) items grid = Ok grid' /\
    wf grid' /\ shape grid' = shape grid /\
    forall x y, in_bounds (shape grid) x y ->
      cell grid' y x =
        match last_write items x y with
        | Some q => Some q
        | None => cell grid y x
        end.
Proof.
  induction items as [|[k v] items IH]; intros grid Hwf; simpl.
  - exists grid. repeat split; try assumption; apply Hwf.
  - destruct (parse_grid_state k) as [[x0 y0]|] eqn:E.
    + destruct (in_boundsb (shape grid) x0 y0) eqn:B.
      * apply in_boundsb_spec in B.
        rewrite max_q_reduce. simpl. rewrite (np_setitem_in _ _ _ _ B). simpl.
        destruct (IH (set_cell grid y0 x0 (reduce v))) as (g' & Hp & Hwf' & Hsh & Hc).
        { now apply wf_set_cell. }
        simpl in Hp, Hsh, Hc.
        exists g'. repeat split; try assumption; try apply Hwf'.
        intros x y Hxy. rewrite (Hc x y Hxy).
        destruct (last_write items x y); [reflexivity|].
        destruct (decide (Some (x0, y0) = Some (x, y))) as [Heq|Hne].
        -- injection Heq as -> ->. now apply cell_set_same.
        -- destruct B as [? ?], Hxy as [? ?].
           apply cell_set_other; try lia. congruence.
      * apply in_boundsb_false in B.
        destruct (IH grid Hwf) as (g' & Hp & Hwf' & Hsh & Hc).
        exists g'. repeat split; try assumption; try apply Hwf'.
        intros x y Hxy. rewrite (Hc x y Hxy).
        destruct (last_write items x y); [reflexivity|].
        destruct (decide (Some (x0, y0) = Some (x, y))) as [Heq|Hne]; [|reflexivity].
        injection Heq as -> ->. contradiction.
    + destruct (IH grid Hwf) as (g' & Hp & Hwf' & Hsh & Hc).
      exists g'. repeat split; try assumption; try apply Hwf'.
      intros x y Hxy. rewrite (Hc x y Hxy).
      destruct (last_write items x y); [reflexivity|].
      destruct (decide (None = Some (x, y))); [discriminate|reflexivity].
Qed.

End GridFacts.

Section GridShape.



Lemma paint_none sh items : forall grid,
  (forall k v x y, In (k, v) items -> parse_grid_state k = Some (x, y) ->
     ~ in_bounds sh x y) ->
  paint sh items grid = Ok grid.
Proof.
  induction items as [|[k v] items IH]; intros grid H; simpl; [reflexivity|].
  assert (H' : forall k v x y, In (k, v) items -> parse_grid_state k = Some (x, y) ->
                 ~ in_bounds sh x y).
  { intros k' v' x y Hin. apply (H k' v'). now right. }
  destruct (parse_grid_state k) as [[x y]|] eqn:E; [|now apply IH].
  destruct (in_boundsb sh x y) eqn:B; [|now apply IH].
  exfalso. apply (H k v x y); [now left|exact E|now apply in_boundsb_spec].
Qed.

Lemma parsed_In keys c :
  In c (parsed keys) <-> exists k, In k keys /\ parse_grid_state k = Some c.
Proof.
  unfold parsed. rewrite <- list_elem_of_In, list_elem_of_omap.
  split; intros (k & Hk & E); exists k; split; try exact E; now apply list_elem_of_In.
Qed.

Lemma resolved_shape_nonneg qtable_data grid_shape :
  valid_shape grid_shape ->
  0 <= fst (resolved_shape qtable_data grid_shape) /\
  0 <= snd (resolved_shape qtable_data grid_shape).
Proof.
  destruct grid_shape as [[r c]|]; simpl; [tauto|]. intros _.
  pose proof (fold_max_ge (map snd (parsed (map fst qtable_data))) 0).
  pose proof (fold_max_ge (map fst (parsed (map fst qtable_data))) 0).
  lia.
Qed.

(** The grid [qtable_to_grid] returns for a valid shape, cell by cell. *)
Lemma qtable_to_grid_cells qtable_data grid_shape :
  valid_shape grid_shape ->
  exists grid,
    qtable_to_grid qtable_data grid_shape = Ok grid /\
    wf grid /\
    shape grid = resolved_shape qtable_data grid_shape /\
    forall x y, in_bounds (shape grid) x y ->
      cell grid y x =
        Some match last_write qtable_data x y with
             | Some q => q
             | None => 0%Q
             end.
Proof.
  intros Hv. rewrite qtable_to_grid_paint.
  destruct (resolved_shape qtable_data grid_shape) as [r c] eqn:Esh.
  pose proof (resolved_shape_nonneg qtable_data grid_shape Hv) as [Hr Hc].
  rewrite Esh in Hr, Hc. simpl in Hr, Hc.
  rewrite np_zeros_ok by assumption. simpl.
  destruct (paint_cells qtable_data _ (wf_zeros r c Hr Hc)) as (g & Hp & Hwf & Hsh & Hcell).
  simpl in Hp, Hsh, Hcell.
  exists g. repeat split; try assumption; try apply Hwf.
  intros x y Hxy. rewrite Hsh in Hxy. rewrite (Hcell x y Hxy).
  rewrite (cell_zeros r c x y Hxy).
  destruct (last_write qtable_data x y); reflexivity.
Qed.

End GridShape.

(** ** The grid of the worked example *)

(** C1: for the Q-table [{"(0,0)": 1.0, "(1,0)": {"up": 2.0, "down": 0.5},
    "(0,1)": 3.0}] and no explicit shape, [qtable_to_grid] returns a
    grid of 2 rows and 2 columns with [grid[0][0] = 1.0],
    [grid[0][1] = 2.0], [grid[1][0] = 3.0] and [grid[1][1] = 0.0]. *)
Theorem qtable_to_grid_example :
  exists grid,
    qtable_to_grid example_qtable None = Ok grid /\
    shape grid = (2, 2) /\
    np_getitem grid 0 0 = Ok 1%Q /\
    np_getitem grid 0 1 = Ok 2%Q /\
    np_getitem grid 1 0 = Ok 3%Q /\
    np_getitem grid 1 1 = Ok 0%Q.
Proof.
  exists (mk_ndarray (2, 2) [[1%Q; 2%Q]; [3%Q; 0%Q]]).
  repeat split; vm_compute; reflexivity.
Qed.

(** ** Value reduction and overwriting *)



(** ** Grid sizing *)

Lemma fold_max_maximum l : forall a,
  fold_left Z.max l a = match maximum l with Some m => Z.max a m | None => a end.
Proof.
  induction l as [|z l IH]; intros a; simpl; [reflexivity|].
  rewrite IH. destruct (maximum l); lia.
Qed.

(** C3, as stated, fails for a table whose only key has negative
    coordinates: the greatest parsed y is -2 and the greatest parsed x
    is -3, yet the grid has one row and one column. *)
Lemma inferred_shape_negative_key_counterexample :
  ~ inferred_shape_is_max_plus_one [("(-3,-2)"%string, Scalar 1)].
Proof.
  intros H. destruct (H (-3) (-2)) as (grid & Hg & Hsh); try reflexivity.
  vm_compute in Hg. injection Hg as <-. discriminate Hsh.
Qed.

(** C3 (amended): an explicit shape with non-negative dimensions is the
    shape of the grid; without one the height is [max(0, greatest parsed
    y) + 1] and the width is [max(0, greatest parsed x) + 1], the maxima
    taken over all parseable keys, and both are 1 when no key is
    parseable. *)
Theorem grid_shape_resolution (qtable_data : qtable) :
  (forall rows cols, 0 <= rows -> 0 <= cols ->
     exists grid,
       qtable_to_grid qtable_data (Some (rows, cols)) = Ok grid /\
       shape grid = (rows, cols)) /\
  (exists grid,
     qtable_to_grid qtable_data None = Ok grid /\
     shape grid = (maximum_from_zero (parsed_ys qtable_data) + 1,
                   maximum_from_zero (parsed_xs qtable_data) + 1)).
Proof.
  split.
  - intros rows cols Hr Hc.
    destruct (qtable_to_grid_cells qtable_data (Some (rows, cols)))
      as (grid & Hg & _ & Hsh & _); [split; assumption|].
    exists grid. split; assumption.
  - destruct (qtable_to_grid_cells qtable_data None) as (grid & Hg & _ & Hsh & _); [exact I|].
    exists grid. split; [exact Hg|]. rewrite Hsh. simpl.
    unfold maximum_from_zero, parsed_ys, parsed_xs. now rewrite !fold_max_maximum.
Qed.

Lemma grid_shape_resolution_witness :
  exists grid,
    qtable_to_grid example_qtable (Some (3, 4)) = Ok grid /\ shape grid = (3, 4).
Proof.
  apply (proj1 (grid_shape_resolution example_qtable) 3 4); lia.
Defined.

(** ** Keys outside an explicit shape *)



(** ** The inferred grid is never empty *)

(** C10: without an explicit shape the grid has at least one row and one
    column; when every parseable key (if any) has negative coordinates
    the grid is the 1x1 grid holding 0.0. *)
Theorem inferred_grid_nonempty (qtable_data : qtable) :
  exists grid,
    qtable_to_grid qtable_data None = Ok grid /\
    1 <= fst (shape grid) /\ 1 <= snd (shape grid) /\
    ((forall k v x y, In (k, v) qtable_data -> parse_grid_state k = Some (x, y) ->
        x < 0 /\ y < 0) ->
     grid = mk_ndarray (1, 1) [[0%Q]]).
Proof.
  destruct (qtable_to_grid_cells qtable_data None) as (grid & Hg & _ & Hsh & _); [exact I|].
  exists grid. split; [exact Hg|].
  simpl in Hsh.
  pose proof (fold_max_ge (map snd (parsed (map fst qtable_data))) 0) as Hy.
  pose proof (fold_max_ge (map fst (parsed (map fst qtable_data))) 0) as Hx.
  rewrite Hsh. simpl. split; [lia|]. split; [lia|].
  intros Hneg.
  assert (Ex : fold_left Z.max (map fst (parsed (map fst qtable_data))) 0 = 0).
  { destruct (fold_max_attained (map fst (parsed (map fst qtable_data))) 0) as [E|Hin];
      [exact E|].
    apply in_map_iff in Hin as ([x y] & E & Hin). simpl in E.
    apply parsed_In in Hin as (k & Hin & Hp).
    apply in_map_iff in Hin as ([k' v] & <- & Hin).
    destruct (Hneg k' v x y Hin Hp). lia. }
  assert (Ey : fold_left Z.max (map snd (parsed (map fst qtable_data))) 0 = 0).
  { destruct (fold_max_attained (map snd (parsed (map fst qtable_data))) 0) as [E|Hin];
      [exact E|].
    apply in_map_iff in Hin as ([x y] & E & Hin). simpl in E.
    apply parsed_In in Hin as (k & Hin & Hp).
    apply in_map_iff in Hin as ([k' v] & <- & Hin).
    destruct (Hneg k' v x y Hin Hp). lia. }
  rewrite qtable_to_grid_paint in Hg. simpl in Hg. rewrite Ex, Ey in Hg. simpl in Hg.
  rewrite paint_none in Hg.
  - now injection Hg as <-.
  - intros k v x y Hin Hp [Hb _]. destruct (Hneg k v x y Hin Hp). simpl in Hb. lia.
Qed.

Lemma inferred_grid_nonempty_witness :
  exists grid,
    qtable_to_grid [("(-1,-2)"%string, Scalar 4); ("state5"%string, Scalar 7)] None = Ok grid /\
    grid = mk_ndarray (1, 1) [[0%Q]].
Proof.
  destruct (inferred_grid_nonempty
              [("(-1,-2)"%string, Scalar 4); ("state5"%string, Scalar 7)])
    as (grid & Hg & _ & _ & H).
  exists grid. split; [exact Hg|]. apply H.
  intros k v x y [E|[E|[]]] Hp; injection E as <- <-; vm_compute in Hp;
    [injection Hp as <- <-; lia|discriminate].
Defined.

(** ** The shape taken from the command line *)


(** C9: with [--rows 0 --cols 3] both options are supplied, yet [main]
    passes no shape on and the grid is sized from the data. *)
Theorem main_grid_shape_zero_rows :
  main_grid_shape (mk_args "qtable.json" None (Some 0) (Some 3) "t") = None /\
  exists grid,
    qtable_to_grid example_qtable
      (main_grid_shape (mk_args "qtable.json" None (Some 0) (Some 3) "t")) = Ok grid /\
    shape grid = (2, 2).
Proof.
  split; [reflexivity|].
  exists (mk_ndarray (2, 2) [[1%Q; 2%Q]; [3%Q; 0%Q]]). split; vm_compute; reflexivity.
Qed.

(** ** State-key parsing *)

Section KeyParsing.

















End KeyParsing.



(** * Properties of the knight's-tour script *)

Section TourFacts.

Lemma getitem_nat {A : Type} (l : list A) (i : nat) (a : A) :
  l !! i = Some a -> getitem l (Z.of_nat i) = Ok a.
Proof.
  intros H. pose proof (lookup_lt_Some _ _ _ H) as Hlt.
  unfold getitem. destruct (Z.ltb_spec (Z.of_nat i) 0) as [?|_]; [lia|].
  destruct (Z.leb_spec 0 (Z.of_nat i)) as [_|?]; [|lia].
  destruct (Z.ltb_spec (Z.of_nat i) (Z.of_nat (length l))) as [_|?]; [|lia].
  simpl. now rewrite Nat2Z.id, H.
Qed.

Lemma getitem_last {A : Type} (l : list A) (a : A) :
  list.last l = Some a -> getitem l (-1) = Ok a.
Proof.
  intros H. rewrite last_lookup in H. pose proof (lookup_lt_Some _ _ _ H) as Hlt.
  unfold getitem. simpl.
  destruct (Z.leb_spec 0 (Z.of_nat (length l) + -1)) as [_|?]; [|lia].
  destruct (Z.ltb_spec (Z.of_nat (length l) + -1) (Z.of_nat (length l))) as [_|?]; [|lia].
  simpl. replace (Z.to_nat (Z.of_nat (length l) + -1)) with (Nat.pred (length l)) by lia.
  now rewrite H.
Qed.

Lemma draw_path_range (path : list (Z * Z)) (n : nat) : forall (a : nat) ax,
  length path = (a + n + 1)%nat ->
  draw_path path (map Z.of_nat (seq a n)) ax =
    Ok (ax ++ path_artists (Z.of_nat a) (drop a path)).
Proof.
  induction n as [|n IH]; intros a ax Hlen; simpl.
  - destruct (drop a path) as [|p0 [|p1 rest]] eqn:E; simpl; try now rewrite app_nil_r.
    apply (f_equal length) in E. rewrite length_drop in E. simpl in E. lia.
  - destruct (drop a path) as [|p0 [|p1 rest]] eqn:E;
      try (apply (f_equal length) in E; rewrite length_drop in E; simpl in E; lia).
    assert (H0 : path !! a = Some p0).
    { rewrite <- (Nat.add_0_r a), <- lookup_drop, E. reflexivity. }
    assert (H1 : path !! S a = Some p1).
    { replace (S a) with (a + 1)%nat by lia. rewrite <- lookup_drop, E. reflexivity. }
    assert (E1 : drop (S a) path = p1 :: rest).
    { replace (S a) with (a + 1)%nat by lia. rewrite <- drop_drop, E. reflexivity. }
    rewrite (getitem_nat _ _ _ H0). simpl.
    replace (Z.of_nat a + 1) with (Z.of_nat (S a)) by lia.
    rewrite (getitem_nat _ _ _ H1). simpl.
    destruct p0 as [x0 y0], p1 as [x1 y1].
    rewrite IH by lia. rewrite E1. f_equal.
    cbn [path_artists]. unfold arrow_between, step_number. simpl.
    replace (Z.of_nat a + 1) with (Z.of_nat (S a)) by lia.
    destruct (0 <? Z.of_nat a); rewrite <- ?app_assoc; reflexivity.
Qed.

Lemma draw_path_all (path : list (Z * Z)) ax :
  draw_path path (range (Z.of_nat (length path) - 1)) ax =
    Ok (ax ++ path_artists 0 path).
Proof.
  unfold range. destruct path as [|p path].
  - simpl. now rewrite app_nil_r.
  - replace (Z.to_nat (Z.of_nat (length (p :: path)) - 1)) with (length path)
      by (simpl; lia).
    rewrite (draw_path_range (p :: path) (length path) 0) by (simpl; lia).
    reflexivity.
Qed.

Lemma path_artists_cons i p0 p1 rest :
  path_artists i (p0 :: p1 :: rest) =
    arrow_between p0 p1
    :: (if 0 <? i then [step_number p0 (i + 1)] else [])
    ++ path_artists (i + 1) (p1 :: rest).
Proof. reflexivity. Qed.



Lemma filter_board (f : artist -> bool) (N : Z) :
  (forall xy c, f (Rectangle xy c) = false) ->
  List.filter f (draw_board N) = [].
Proof.
  intros Hf. unfold draw_board.
  generalize (range N) at 2. intros xs. generalize (range N). intros ys.
  induction xs as [|x xs IH]; [reflexivity|].
  cbn [flat_map]. rewrite List.filter_app, IH, app_nil_r. clear IH.
  induction ys as [|y ys IHy]; [reflexivity|].
  cbn [map List.filter]. rewrite Hf. exact IHy.
Qed.

End TourFacts.

Section TourRun.

Lemma draw_end_ok path ax : draw_end path ax = Ok (ax ++ end_artists path).
Proof.
  unfold draw_end, end_artists.
  destruct (1 <? Z.of_nat (length path)) eqn:E; [|now rewrite app_nil_r].
  destruct (list.last path) as [[fx fy]|] eqn:L.
  - rewrite (getitem_last _ _ L). reflexivity.
  - apply last_None in L. subst path. discriminate E.
Qed.

Lemma truediv_ok a b :
  b <> 0 -> truediv a b = Ok (SFdiv prec emax (float_of_int a) (float_of_int b)).
Proof. intros H. unfold truediv. destruct (Z.eqb_spec b 0); [contradiction|reflexivity]. Qed.

Lemma completion_pct_ok visited total :
  total <> 0 -> completion_pct visited total = Ok (pct_double visited total).
Proof. intros H. unfold completion_pct. now rewrite truediv_ok. Qed.

Lemma draw_tour_ok (data : tour) : draw_tour data = Ok (tour_artists data).
Proof.
  unfold draw_tour. rewrite draw_path_all. cbn [bind]. now rewrite draw_end_ok.
Qed.

(** The run of the script on a document with a non-zero total. *)
Lemma visualize_knight_tour_ok (data : tour) (output_path : string) :
  total_squares data <> 0 ->
  visualize_knight_tour data output_path =
    Ok (mk_figure
          (tour_artists data)
          (title_text (board_size data) (visited_squares data) (total_squares data)
             (format_1f (pct_double (visited_squares data) (total_squares data))))
          [(output_path, 150); (replace output_path ".png" "_hq.png", 300)]).
Proof.
  intros H. unfold visualize_knight_tour.
  rewrite draw_tour_ok. cbn [bind].
  rewrite (completion_pct_ok _ _ H). reflexivity.
Qed.





End TourRun.

(** ** Arrows and step numbers *)






(** ** The path of the high-resolution image *)

Lemma hq_path_plain_name :
  replace "tour.png" ".png" "_hq.png" = "tour_hq.png"%string /\
  replace_suffix "tour.png" ".png" "_hq.png" = "tour_hq.png"%string.
Proof. split; vm_compute; reflexivity. Qed.

(** C7: for the output path [run.png.d/tour.png] the first image goes to
    that path, but the second goes to [run_hq.png.d/tour_hq.png]: every
    [.png] of the path is replaced, where replacing the suffix gives
    [run.png.d/tour_hq.png]. *)
Theorem hq_path_replaces_every_png :
  exists fig,
    visualize_knight_tour (mk_tour 8 (0, 0) [(0, 0); (1, 2)] 2 64) "run.png.d/tour.png"
      = Ok fig /\
    saved fig = [("run.png.d/tour.png"%string, 150);
                 ("run_hq.png.d/tour_hq.png"%string, 300)] /\
    replace_suffix "run.png.d/tour.png" ".png" "_hq.png" = "run.png.d/tour_hq.png"%string.
Proof.
  eexists. split; [apply visualize_knight_tour_ok; discriminate|].
  split; vm_compute; reflexivity.
Qed.

(** For a path without [.png] both images go to the same file. *)
Lemma hq_path_without_png :
  exists fig,
    visualize_knight_tour (mk_tour 8 (0, 0) [(0, 0); (1, 2)] 2 64) "tour.jpg" = Ok fig /\
    saved fig = [("tour.jpg"%string, 150); ("tour.jpg"%string, 300)].
Proof.
  eexists. split; [apply visualize_knight_tour_ok; discriminate|].
  vm_compute. reflexivity.
Qed.

(** ** The completion percentage *)

Lemma one_decimal_example r : one_decimal r (inject_Z 100 * inject_Z 32 / inject_Z 64) = "50.0"%string.
Proof. destruct r; vm_compute; reflexivity. Qed.

(** C8, as stated, fails for 115 visited squares out of 400: the exact
    percentage is 28.75, "28.8" with one decimal place, but the quotient
    115 / 400 is rounded to a double before it is multiplied by 100, the
    product is the double just below 28.75, and the title says "28.7". *)
Lemma pct_115_of_400_counterexample :
  ~ pct_is_exact_quotient (mk_tour 20 (0, 0) (row_by_row 20 115) 115 400) "tour.png".
Proof.
  intros (fig & r & Hv & Ht).
  rewrite visualize_knight_tour_ok in Hv by discriminate.
  injection Hv as <-. destruct r; vm_compute in Ht; discriminate Ht.
Qed.

Section Rendering.

Lemma tenths_nearest m e : is_nearest_tenths m e (tenths m e).
Proof.
  unfold is_nearest_tenths, tenths.
  destruct (Z.leb_spec 0 e) as [He|He]; [reflexivity|].
  assert (Hd : 0 < 2 ^ (- e)) by (apply Z.pow_pos_nonneg; lia).
  pose proof (Z.div_mod (10 * Z.pos m) (2 ^ (- e)) ltac:(lia)) as Hdm.
  pose proof (Z.mod_pos_bound (10 * Z.pos m) (2 ^ (- e)) Hd) as Hr.
  set (d := 2 ^ (- e)) in *.
  set (q := 10 * Z.pos m / d) in *.
  set (r := (10 * Z.pos m) mod d) in *.
  destruct (Z.ltb_spec (2 * r) d); [nia|].
  destruct (Z.ltb_spec d (2 * r)); [nia|].
  destruct (Z.even q); nia.
Qed.

Lemma tenths_nonneg m e : 0 <= tenths m e.
Proof.
  unfold tenths. destruct (Z.leb_spec 0 e) as [He|He].
  - pose proof (Z.pow_nonneg 2 e ltac:(lia)). nia.
  - assert (Hd : 0 < 2 ^ (- e)) by (apply Z.pow_pos_nonneg; lia).
    pose proof (Z.div_pos (10 * Z.pos m) (2 ^ (- e)) ltac:(lia) Hd).
    destruct (2 * ((10 * Z.pos m) mod 2 ^ (- e)) <? 2 ^ (- e)); [assumption|].
    destruct (2 ^ (- e) <? 2 * ((10 * Z.pos m) mod 2 ^ (- e))); [lia|].
    destruct (Z.even (10 * Z.pos m / 2 ^ (- e))); lia.
Qed.

Lemma str_digit d : 0 <= d <= 9 -> String.length (str d) = 1%nat.
Proof.
  intros H.
  assert (C : d = 0 \/ d = 1 \/ d = 2 \/ d = 3 \/ d = 4 \/ d = 5 \/ d = 6 \/ d = 7
              \/ d = 8 \/ d = 9) by lia.
  repeat (destruct C as [->|C]; [reflexivity|]). subst d. reflexivity.
Qed.

Lemma format_1f_zero s : one_decimal_of (S754_zero s) (format_1f (S754_zero s)).
Proof.
  exists s, 0, 0. split; [lia|]. split; [lia|]. split; [reflexivity|].
  split; [reflexivity|]. repeat split.
Qed.

Lemma format_1f_finite s m e :
  one_decimal_of (S754_finite s m e) (format_1f (S754_finite s m e)).
Proof.
  cbn [format_1f].
  pose proof (tenths_nonneg m e) as Hn. pose proof (tenths_nearest m e) as Hnear.
  set (n := tenths m e) in *.
  pose proof (Z.mod_pos_bound n 10 ltac:(lia)) as Hm.
  exists s, (n / 10), (n mod 10).
  split; [apply Z.div_pos; lia|]. split; [lia|].
  split; [apply str_digit; lia|]. split; [reflexivity|].
  split; [reflexivity|]. now rewrite <- Z.div_mod by lia.
Qed.

End Rendering.

(** ** The double in the title is finite *)

Section FloatFacts.

Lemma fexp_64 e : fexp prec emax e = Z.max (e - 53) (-1074).
Proof. reflexivity. Qed.

Lemma digits2_pos_gt p : Z.pos p < 2 ^ Z.pos (digits2_pos p).
Proof.
  induction p as [p IH|p IH|]; cbn [digits2_pos];
    rewrite ?Pos2Z.inj_succ, ?Z.pow_succ_r by lia; lia.
Qed.

Lemma digits2_pos_le p : forall k, 0 <= k -> Z.pos p < 2 ^ k -> Z.pos (digits2_pos p) <= k.
Proof.
  induction p as [p IH|p IH|]; intros k Hk Hp; cbn [digits2_pos].
  - destruct (Z.eq_dec k 0) as [->|Hne]; [simpl in Hp; lia|].
    replace k with (Z.succ (k - 1)) in Hp by lia. rewrite Z.pow_succ_r in Hp by lia.
    specialize (IH (k - 1) ltac:(lia) ltac:(lia)). lia.
  - destruct (Z.eq_dec k 0) as [->|Hne]; [simpl in Hp; lia|].
    replace k with (Z.succ (k - 1)) in Hp by lia. rewrite Z.pow_succ_r in Hp by lia.
    specialize (IH (k - 1) ltac:(lia) ltac:(lia)). lia.
  - destruct (Z.eq_dec k 0) as [->|Hne]; [simpl in Hp; lia|]. lia.
Qed.

Lemma Zdigits2_le z k : 0 <= k -> 0 <= z < 2 ^ k -> Zdigits2 z <= k.
Proof.
  intros Hk [Hz Hlt]. destruct z as [|p|p]; simpl; [lia| |lia].
  now apply digits2_pos_le.
Qed.

Lemma shr_1_m mrs : 0 <= shr_m mrs -> 0 <= shr_m (shr_1 mrs) <= shr_m mrs.
Proof.
  destruct mrs as [m r s]. destruct m as [|[p|p|]|p]; simpl; lia.
Qed.

Lemma iter_shr_1_m p : forall mrs,
  0 <= shr_m mrs -> 0 <= shr_m (SpecFloat.iter_pos shr_1 p mrs) <= shr_m mrs.
Proof.
  induction p as [p IH|p IH|]; intros mrs H; cbn [SpecFloat.iter_pos].
  - pose proof (shr_1_m mrs H) as H1.
    pose proof (IH (shr_1 mrs) ltac:(lia)) as H2.
    pose proof (IH (SpecFloat.iter_pos shr_1 p (shr_1 mrs)) ltac:(lia)). lia.
  - pose proof (IH mrs H) as H1.
    pose proof (IH (SpecFloat.iter_pos shr_1 p mrs) ltac:(lia)). lia.
  - now apply shr_1_m.
Qed.

Lemma shr_record_of_loc_m m l : shr_m (shr_record_of_loc m l) = m.
Proof. destruct l as [|[]]; reflexivity. Qed.

Lemma shr_fexp_bounds m e l mrs' e' :
  0 <= m ->
  shr_fexp prec emax m e l = (mrs', e') ->
  0 <= shr_m mrs' <= m /\ e' = Z.max e (fexp prec emax (Zdigits2 m + e)).
Proof.
  intros Hm. unfold shr_fexp, shr.
  destruct (fexp prec emax (Zdigits2 m + e) - e) as [|p|p] eqn:E; intros [= <- <-].
  - rewrite shr_record_of_loc_m. lia.
  - pose proof (iter_shr_1_m p (shr_record_of_loc m l)) as H.
    rewrite shr_record_of_loc_m in H. specialize (H Hm). lia.
  - rewrite shr_record_of_loc_m. lia.
Qed.

Lemma round_nearest_even_bounds m l : m <= round_nearest_even m l <= m + 1.
Proof. destruct l as [|[]]; simpl; try lia. destruct (Z.even m); lia. Qed.

(** Rounding a mantissa below [2^D] at an exponent of modest size cannot
    overflow. *)
Lemma binary_round_aux_within sx mx ex lx D L E :
  0 <= D -> 0 <= mx < 2 ^ D -> L <= ex <= E ->
  Z.max E (-1074) + 2 * D + 1 <= 971 ->
  within (D + 1) L (Z.max E (-1074) + 2 * D + 1)
    (binary_round_aux prec emax sx mx ex lx).
Proof.
  intros HD [Hm Hlt] He Hb. unfold binary_round_aux.
  destruct (shr_fexp prec emax mx ex lx) as [mrs1 e1] eqn:S1.
  destruct (shr_fexp_bounds _ _ _ _ _ Hm S1) as [Hm1 He1].
  pose proof (Zdigits2_le mx D HD (conj Hm Hlt)) as Hd.
  rewrite fexp_64 in He1.
  pose proof (round_nearest_even_bounds (shr_m mrs1) (loc_of_shr_record mrs1)) as Hr.
  set (m2 := round_nearest_even (shr_m mrs1) (loc_of_shr_record mrs1)) in *.
  destruct (shr_fexp prec emax m2 e1 loc_Exact) as [mrs2 e2] eqn:S2.
  assert (Hm2' : 0 <= m2) by lia.
  destruct (shr_fexp_bounds _ _ _ _ _ Hm2' S2) as [Hm2 He2].
  assert (Hp : 2 ^ (D + 1) = 2 * 2 ^ D)
    by (replace (D + 1) with (Z.succ D) by lia; apply Z.pow_succ_r; lia).
  pose proof (Zdigits2_le m2 (D + 1) ltac:(lia) ltac:(lia)) as Hd2.
  rewrite fexp_64 in He2.
  destruct (shr_m mrs2) as [|p|p] eqn:M; [exact I| |lia].
  destruct (Z.leb_spec e2 (emax - prec)) as [_|Hgt];
    [|unfold emax, prec in Hgt; lia].
  simpl. split; lia.
Qed.

Lemma digits2_pos_iter p k :
  Z.pos (digits2_pos (Pos.iter xO p k)) = Z.pos (digits2_pos p) + Z.pos k.
Proof.
  induction k as [|k IH] using Pos.peano_ind.
  - simpl. lia.
  - rewrite Pos.iter_succ. cbn [digits2_pos]. lia.
Qed.

(** A mantissa that already has its place is returned as it is. *)
Lemma binary_round_aux_exact s m e :
  fexp prec emax (Zdigits2 (Z.pos m) + e) <= e -> e <= 971 ->
  binary_round_aux prec emax s (Z.pos m) e loc_Exact = S754_finite s m e.
Proof.
  intros Hf He.
  assert (S : shr_fexp prec emax (Z.pos m) e loc_Exact
              = ({| shr_m := Z.pos m; shr_r := false; shr_s := false |}, e)).
  { unfold shr_fexp, shr.
    destruct (fexp prec emax (Zdigits2 (Z.pos m) + e) - e) as [|p|p] eqn:E;
      try reflexivity. lia. }
  unfold binary_round_aux. rewrite S. cbn [shr_m loc_of_shr_record round_nearest_even].
  rewrite S. cbn [shr_m].
  destruct (Z.leb_spec e (emax - prec)) as [_|Hgt]; [reflexivity|].
  unfold emax, prec in Hgt. lia.
Qed.

(** [float(n)] is exact for a non-zero integer below [2^53]: a mantissa
    of 53 bits and an exponent between -52 and 0. *)
Lemma float_of_int_finite n :
  n <> 0 -> Z.abs n < 2 ^ 53 ->
  exists m e,
    float_of_int n = S754_finite (n <? 0) m e /\
    Z.pos m < 2 ^ 53 /\ -52 <= e <= 0.
Proof.
  intros Hn Hlt.
  assert (G : forall s p, Z.pos p < 2 ^ 53 ->
            exists m e, binary_round prec emax s p 0 = S754_finite s m e /\
                        Z.pos m < 2 ^ 53 /\ -52 <= e <= 0).
  { intros s p Hp. unfold binary_round, shl_align.
    pose proof (digits2_pos_le p 53 ltac:(lia) Hp) as Hd.
    rewrite fexp_64.
    destruct (Z.max (Z.pos (digits2_pos p) + 0 - 53) (-1074) - 0) as [|k|k] eqn:E;
      try lia.
    - exists p, 0. split; [|lia]. apply binary_round_aux_exact; [|lia].
      rewrite fexp_64. cbn [Zdigits2]. lia.
    - pose proof (digits2_pos_iter p k) as Hk.
      exists (Pos.iter xO p k), (Z.max (Z.pos (digits2_pos p) + 0 - 53) (-1074)).
      split; [|split; [|lia]].
      + apply binary_round_aux_exact; [|lia]. rewrite fexp_64. cbn [Zdigits2]. lia.
      + pose proof (digits2_pos_gt (Pos.iter xO p k)) as Hg.
        replace (Z.pos (digits2_pos (Pos.iter xO p k))) with 53 in Hg by lia.
        exact Hg. }
  unfold float_of_int, binary_normalize. destruct n as [|p|p]; [contradiction| |].
  - apply (G false p). lia.
  - apply (G true p). lia.
Qed.

Lemma pow2_add a b : 0 <= a -> 0 <= b -> 2 ^ (a + b) = 2 ^ a * 2 ^ b.
Proof. intros. now apply Z.pow_add_r. Qed.

(** The quotient of two such doubles. *)
Lemma SFdiv_finite_within s1 m1 e1 s2 m2 e2 :
  Z.pos m1 < 2 ^ 53 -> -52 <= e1 <= 0 ->
  Z.pos m2 < 2 ^ 53 -> -52 <= e2 <= 0 ->
  within 159 (-157) 369
    (SFdiv prec emax (S754_finite s1 m1 e1) (S754_finite s2 m2 e2)).
Proof.
  intros Hm1 He1 Hm2 He2. cbn [SFdiv]. unfold SFdiv_core_binary.
  pose proof (digits2_pos_le m1 53 ltac:(lia) Hm1) as Hd1.
  pose proof (digits2_pos_le m2 53 ltac:(lia) Hm2) as Hd2.
  cbn [Zdigits2]. rewrite fexp_64.
  set (d1 := Z.pos (digits2_pos m1)) in *. set (d2 := Z.pos (digits2_pos m2)) in *.
  assert (Hd1' : 0 < d1) by (unfold d1; lia).
  assert (Hd2' : 0 < d2) by (unfold d2; lia).
  set (e' := Z.min (Z.max (d1 + e1 - (d2 + e2) - 53) (-1074)) (e1 - e2)).
  set (sh := e1 - e2 - e').
  assert (Hsh : 0 <= sh <= 105) by (unfold sh, e'; lia).
  assert (He' : -157 <= e' <= 52) by (unfold e'; lia).
  set (m' := match sh with
             | 0 => Z.pos m1
             | Z.pos _ => Z.shiftl (Z.pos m1) sh
             | Z.neg _ => 0
             end).
  assert (Hm' : 0 <= m' < 2 ^ 158).
  { assert (E : m' = Z.pos m1 * 2 ^ sh).
    { unfold m'. destruct sh as [|p|p] eqn:Esh; [simpl; lia| |lia].
      apply Z.shiftl_mul_pow2. lia. }
    rewrite E.
    assert (Hp : 0 < 2 ^ sh <= 2 ^ 105).
    { split; [apply Z.pow_pos_nonneg; lia|apply Z.pow_le_mono_r; lia]. }
    replace (2 ^ 158) with (2 ^ 53 * 2 ^ 105) by (rewrite <- pow2_add; [reflexivity|lia|lia]).
    assert (0 < 2 ^ 53) by (apply Z.pow_pos_nonneg; lia).
    nia. }
  destruct (Z.div_eucl m' (Z.pos m2)) as [q r] eqn:Q.
  assert (Eq : q = m' / Z.pos m2) by (unfold Z.div; now rewrite Q).
  assert (Hq : 0 <= q < 2 ^ 158).
  { rewrite Eq. split; [apply Z.div_pos; lia|].
    apply Z.le_lt_trans with m'; [|lia].
    apply Z.div_le_upper_bound; [lia|nia]. }
  apply (binary_round_aux_within _ q e' _ 158 (-157) 52); lia.
Qed.

(** The double in the title is a zero or a finite double. *)
Lemma pct_double_within visited total :
  total <> 0 -> Z.abs visited < 2 ^ 53 -> Z.abs total < 2 ^ 53 ->
  within 213 (-203) 748 (pct_double visited total).
Proof.
  intros Ht Hv Hlt. unfold pct_double.
  destruct (float_of_int_finite total Ht Hlt) as (m2 & e2 & -> & Hm2 & He2).
  assert (Hq : within 159 (-157) 369
                 (SFdiv prec emax (float_of_int visited)
                    (S754_finite (total <? 0) m2 e2))).
  { destruct (Z.eq_dec visited 0) as [->|Hne]; [exact I|].
    destruct (float_of_int_finite visited Hne Hv) as (m1 & e1 & -> & Hm1 & He1).
    now apply SFdiv_finite_within. }
  destruct (SFdiv prec emax (float_of_int visited) (S754_finite (total <? 0) m2 e2))
    as [s|s| |s m e]; try contradiction; [exact I|].
  destruct Hq as [Hm He].
  destruct (float_of_int_finite 100 ltac:(lia) ltac:(simpl; lia))
    as (m3 & e3 & E3 & Hm3 & He3).
  assert (E46 : e3 = -46) by (vm_compute in E3; congruence).
  rewrite E3. cbn [SFmul].
  assert (Hp : 0 <= Z.pos (m * m3) < 2 ^ 212).
  { split; [lia|]. rewrite Pos2Z.inj_mul.
    replace (2 ^ 212) with (2 ^ 159 * 2 ^ 53) by (rewrite <- pow2_add; [reflexivity|lia|lia]).
    assert (0 < 2 ^ 53) by (apply Z.pow_pos_nonneg; lia).
    assert (0 < 2 ^ 159) by (apply Z.pow_pos_nonneg; lia).
    nia. }
  apply (binary_round_aux_within _ (Z.pos (m * m3)) (e + e3) _ 212 (-203) 323); lia.
Qed.

End FloatFacts.

(** C8 (amended): for integers below [2^53] in absolute value and a
    non-zero total, the percentage in the title is the double
    [(visited / total) * 100], the quotient rounded to a double before
    the multiplication; that double is finite and is rendered as its
    nearest tenth, with exactly one digit after the point; 32 visited
    squares out of 64 give "50.0". *)
Theorem completion_pct_in_title (data : tour) (output_path : string) :
  total_squares data <> 0 ->
  Z.abs (visited_squares data) < 2 ^ 53 ->
  Z.abs (total_squares data) < 2 ^ 53 ->
  exists fig pct,
    visualize_knight_tour data output_path = Ok fig /\
    completion_pct (visited_squares data) (total_squares data) = Ok pct /\
    pct = fmul_int
            (SFdiv prec emax (float_of_int (visited_squares data))
               (float_of_int (total_squares data))) 100 /\
    title fig =
      title_text (board_size data) (visited_squares data) (total_squares data)
        (format_1f pct) /\
    one_decimal_of pct (format_1f pct) /\
    (visited_squares data = 32 -> total_squares data = 64 ->
     format_1f pct = "50.0"%string).
Proof.
  intros H Hv Ht. eexists. exists (pct_double (visited_squares data) (total_squares data)).
  split; [apply (visualize_knight_tour_ok _ _ H)|].
  split; [apply (completion_pct_ok _ _ H)|].
  split; [reflexivity|]. split; [reflexivity|].
  split.
  - pose proof (pct_double_within _ _ H Hv Ht) as W.
    destruct (pct_double (visited_squares data) (total_squares data)) as [s|s| |s m e];
      try contradiction; [apply format_1f_zero|apply format_1f_finite].
  - intros -> ->. vm_compute. reflexivity.
Qed.

Lemma completion_pct_in_title_witness :
  exists fig pct,
    visualize_knight_tour (mk_tour 8 (0, 0) (row_by_row 8 32) 32 64) "tour.png" = Ok fig /\
    completion_pct 32 64 = Ok pct /\
    pct = fmul_int (SFdiv prec emax (float_of_int 32) (float_of_int 64)) 100 /\
    title fig = title_text 8 32 64 (format_1f pct) /\
    one_decimal_of pct (format_1f pct) /\
    (32 = 32 -> 64 = 64 -> format_1f pct = "50.0"%string).
Proof.
  apply (completion_pct_in_title (mk_tour 8 (0, 0) (row_by_row 8 32) 32 64) "tour.png");
    simpl; lia.
Defined.

Import Heatmap.
Import KnightScript.

(** * Further properties of the Q-table script *)

(** ** Keys written from two integers *)

Section KeyRoundTrip.








End KeyRoundTrip.



(** ** A dash before the second number *)



(** ** The cells of the grid *)

Section GridCells.

Lemma last_write_some items x y q :
  last_write items x y = Some q ->
  exists k v, In (k, v) items /\ parse_grid_state k = Some (x, y) /\ q = reduce v.
Proof.
  induction items as [|[k v] items IH]; simpl; [discriminate|].
  destruct (last_write items x y) as [q'|].
  - intros [= <-]. destruct (IH eq_refl) as (k' & v' & Hin & Hp & E).
    exists k', v'. split; [now right|split; assumption].
  - destruct (decide (parse_grid_state k = Some (x, y))) as [E|_]; [|discriminate].
    intros [= <-]. exists k, v. split; [now left|split; [exact E|reflexivity]].
Qed.

(** Two arrays of the same shape with the same cells are the same
    array. *)
Lemma ndarray_ext g1 g2 :
  wf g1 -> wf g2 -> shape g1 = shape g2 ->
  (forall x y, in_bounds (shape g1) x y -> cell g1 y x = cell g2 y x) ->
  g1 = g2.
Proof.
  intros [Hn1 Hr1 Hc1] [Hn2 Hr2 Hc2] Hsh Hcell.
  destruct g1 as [sh1 d1], g2 as [sh2 d2]. simpl in *. subst sh2. f_equal.
  apply list_eq. intros i.
  destruct (d1 !! i) as [row1|] eqn:E1.
  - pose proof (lookup_lt_Some _ _ _ E1) as Hi.
    destruct (lookup_lt_is_Some_2 d2 i) as [row2 E2]; [lia|]. rewrite E2. f_equal.
    rewrite Forall_forall in Hc1, Hc2.
    pose proof (Hc1 _ (list_elem_of_lookup_2 _ _ _ E1)) as L1.
    pose proof (Hc2 _ (list_elem_of_lookup_2 _ _ _ E2)) as L2.
    apply list_eq. intros j.
    destruct (decide (j < length row1)%nat) as [Hj|Hj].
    + specialize (Hcell (Z.of_nat j) (Z.of_nat i)).
      unfold cell in Hcell. simpl in Hcell. rewrite !Nat2Z.id, E1, E2 in Hcell.
      apply Hcell. unfold in_bounds. lia.
    + rewrite !lookup_ge_None_2 by lia. reflexivity.
  - pose proof (lookup_ge_None_1 _ _ E1). rewrite lookup_ge_None_2 by lia. reflexivity.
Qed.

(** The maximum the first loop computes depends only on which
    coordinates occur. *)
Lemma fold_max_ext l l' a :
  (forall z, In z l <-> In z l') -> fold_left Z.max l a = fold_left Z.max l' a.
Proof.
  intros H.
  pose proof (fold_max_ge l a). pose proof (fold_max_ge l' a).
  destruct (fold_max_attained l a) as [E|Hin], (fold_max_attained l' a) as [E'|Hin'].
  - congruence.
  - apply H in Hin'. pose proof (fold_max_upper l a _ Hin'). lia.
  - apply H in Hin. pose proof (fold_max_upper l' a _ Hin). lia.
  - apply H in Hin. apply H in Hin'.
    pose proof (fold_max_upper l' a _ Hin). pose proof (fold_max_upper l a _ Hin'). lia.
Qed.

Lemma resolved_shape_ext t t' grid_shape :
  (forall c, In c (parsed (map fst t)) <-> In c (parsed (map fst t'))) ->
  resolved_shape t grid_shape = resolved_shape t' grid_shape.
Proof.
  intros H. destruct grid_shape as [sh|]; [reflexivity|]. simpl. f_equal; [f_equal|f_equal].
  - apply fold_max_ext. intros z. rewrite !in_map_iff.
    split; intros (c & E & Hin); exists c; (split; [exact E|now apply H]).
  - apply fold_max_ext. intros z. rewrite !in_map_iff.
    split; intros (c & E & Hin); exists c; (split; [exact E|now apply H]).
Qed.

Lemma parsed_items_In (t : qtable) c :
  In c (parsed (map fst t)) <-> exists k v, In (k, v) t /\ parse_grid_state k = Some c.
Proof.
  rewrite parsed_In. split.
  - intros (k & Hin & E). apply in_map_iff in Hin as ([k' v] & <- & Hin). now exists k', v.
  - intros (k & v & Hin & E). exists k. split; [|exact E].
    apply in_map_iff. now exists (k, v).
Qed.

End GridCells.



(** X4: without an explicit shape the grid is large enough for every key
    with non-negative coordinates, and no larger: its last row is row 0
    or the row of some key, and its last column is column 0 or the
    column of some key. *)
Theorem inferred_shape_fits_the_keys (qtable_data : qtable) :
  exists grid,
    qtable_to_grid qtable_data None = Ok grid /\
    (forall k v x y,
       In (k, v) qtable_data -> parse_grid_state k = Some (x, y) ->
       0 <= x -> 0 <= y -> in_bounds (shape grid) x y) /\
    (fst (shape grid) = 1 \/
     exists k v x,
       In (k, v) qtable_data /\ parse_grid_state k = Some (x, fst (shape grid) - 1)) /\
    (snd (shape grid) = 1 \/
     exists k v y,
       In (k, v) qtable_data /\ parse_grid_state k = Some (snd (shape grid) - 1, y)).
Proof.
  destruct (qtable_to_grid_cells qtable_data None) as (grid & Hg & _ & Hsh & _); [exact I|].
  exists grid. split; [exact Hg|]. rewrite Hsh. cbn [resolved_shape fst snd].
  set (xs := map fst (parsed (map fst qtable_data))).
  set (ys := map snd (parsed (map fst qtable_data))).
  split; [|split].
  - intros k v x y Hin Hp Hx Hy.
    assert (Hc : In (x, y) (parsed (map fst qtable_data)))
      by (apply parsed_items_In; now exists k, v).
    pose proof (fold_max_upper xs 0 x ltac:(apply in_map_iff; now exists (x, y))).
    pose proof (fold_max_upper ys 0 y ltac:(apply in_map_iff; now exists (x, y))).
    unfold in_bounds. simpl. lia.
  - destruct (fold_max_attained ys 0) as [E|Hin]; [left; lia|right].
    apply in_map_iff in Hin as ([x y] & E & Hin). simpl in E.
    apply parsed_items_In in Hin as (k & v & Hin & Hp).
    exists k, v, x. split; [exact Hin|]. rewrite Hp. f_equal. f_equal. lia.
  - destruct (fold_max_attained xs 0) as [E|Hin]; [left; lia|right].
    apply in_map_iff in Hin as ([x y] & E & Hin). simpl in E.
    apply parsed_items_In in Hin as (k & v & Hin & Hp).
    exists k, v, y. split; [exact Hin|]. rewrite Hp. f_equal. f_equal. lia.
Qed.

(** ** The order of the items *)

Section ItemOrder.

Lemma last_write_agree t x y k v :
  cells_agree t -> In (k, v) t -> parse_grid_state k = Some (x, y) ->
  last_write t x y = Some (reduce v).
Proof.
  intros Ha Hin Hp. destruct (last_write t x y) as [q|] eqn:L.
  - apply last_write_some in L as (k' & v' & Hin' & Hp' & ->).
    f_equal. exact (Ha _ _ _ _ _ Hin' Hin Hp' Hp).
  - exfalso. revert L. clear Ha. induction t as [|[k' v'] t IH]; [contradiction|].
    simpl. destruct (last_write t x y); [discriminate|].
    destruct Hin as [[= -> ->]|Hin].
    + destruct (decide (parse_grid_state k = Some (x, y))); [discriminate|contradiction].
    + intros _. now apply IH.
Qed.

Lemma last_write_perm t t' x y :
  cells_agree t -> (forall item, In item t <-> In item t') ->
  last_write t x y = last_write t' x y.
Proof.
  intros Ha H.
  assert (Ha' : cells_agree t').
  { intros k1 v1 k2 v2 c H1 H2. apply H in H1. apply H in H2. now apply Ha. }
  destruct (last_write t x y) as [q|] eqn:L.
  - apply last_write_some in L as (k & v & Hin & Hp & ->).
    symmetry. apply (last_write_agree t' x y k v Ha'); [now apply H|exact Hp].
  - destruct (last_write t' x y) as [q|] eqn:L'; [|reflexivity].
    apply last_write_some in L' as (k & v & Hin & Hp & ->).
    apply H in Hin. rewrite (last_write_agree t x y k v Ha Hin Hp) in L. discriminate.
Qed.

End ItemOrder.

(** X6: the grid does not depend on the order in which the items of the
    table are traversed, as long as items whose keys parse to the same
    cell carry the same reduced value (so whenever all keys parse to
    different cells). *)
Theorem grid_independent_of_item_order
    (qtable_data qtable_data' : qtable) (grid_shape : option (Z * Z)) :
  Permutation qtable_data qtable_data' ->
  cells_agree qtable_data ->
  qtable_to_grid qtable_data grid_shape = qtable_to_grid qtable_data' grid_shape.
Proof.
  intros Hperm Ha.
  assert (Hin : forall item, In item qtable_data <-> In item qtable_data').
  { intros item. split; apply Permutation_in; [exact Hperm|now symmetry]. }
  assert (Hsh : resolved_shape qtable_data grid_shape
                = resolved_shape qtable_data' grid_shape).
  { apply resolved_shape_ext. intros c. rewrite !parsed_items_In.
    split; intros (k & v & Hi & E); exists k, v; (split; [now apply Hin|exact E]). }
  rewrite !qtable_to_grid_paint, <- Hsh.
  destruct (resolved_shape qtable_data grid_shape) as [r c] eqn:Esh.
  destruct (Z.leb_spec 0 r) as [Hr|Hr]; [|now rewrite np_zeros_neg by lia].
  destruct (Z.leb_spec 0 c) as [Hc|Hc]; [|now rewrite np_zeros_neg by lia].
  rewrite np_zeros_ok by assumption. cbn [bind].
  destruct (paint_cells qtable_data _ (wf_zeros r c Hr Hc)) as (g & Hp & Hwf & Hs & Hcell).
  destruct (paint_cells qtable_data' _ (wf_zeros r c Hr Hc))
    as (g' & Hp' & Hwf' & Hs' & Hcell').
  simpl in Hp, Hp', Hs, Hs', Hcell, Hcell'.
  rewrite Hp, Hp'. f_equal.
  apply ndarray_ext; try assumption; [congruence|].
  intros x y Hxy. rewrite Hs in Hxy.
  rewrite (Hcell x y Hxy), (Hcell' x y Hxy).
  now rewrite (last_write_perm qtable_data qtable_data' x y Ha Hin).
Qed.

Lemma grid_independent_of_item_order_witness :
  qtable_to_grid example_qtable None = qtable_to_grid (rev example_qtable) None.
Proof.
  apply (grid_independent_of_item_order example_qtable (rev example_qtable) None).
  - apply Permutation_rev.
  - intros k1 v1 k2 v2 c H1 H2 E1 E2.
    simpl in H1, H2.
    destruct H1 as [H1|[H1|[H1|[]]]]; injection H1 as <- <-;
      destruct H2 as [H2|[H2|[H2|[]]]]; injection H2 as <- <-;
      try reflexivity; vm_compute in E1, E2; congruence.
Defined.

(** ** The two formats of the table *)

Lemma max_q_flat_value value : max_q (flat_value value) = max_q value.
Proof. unfold flat_value. destruct (max_q value) as [q|e] eqn:E; [reflexivity|exact E]. Qed.

Lemma paint_flat_table sh items : forall grid,
  paint sh (flat_table items) grid = paint sh items grid.
Proof.
  induction items as [|[k v] items IH]; intros grid; [reflexivity|].
  cbn [flat_table map paint fst snd]. fold (flat_table items).
  rewrite max_q_flat_value.
  destruct (parse_grid_state k) as [[x y]|]; [|apply IH].
  destruct (in_boundsb sh x y); [|apply IH].
  destruct (max_q v) as [q|e]; cbn [bind]; [|reflexivity].
  destruct (np_setitem grid y x q) as [g|e]; cbn [bind]; [apply IH|reflexivity].
Qed.

(** X7: the full format [{state: {action: q_value}}] and the simplified
    format [{state: max_q_value}] of the same table give the same grid:
    replacing every value by the number it reduces to changes
    nothing. *)
Theorem flat_table_same_grid (qtable_data : qtable) (grid_shape : option (Z * Z)) :
  qtable_to_grid (flat_table qtable_data) grid_shape
  = qtable_to_grid qtable_data grid_shape.
Proof.
  rewrite !qtable_to_grid_paint.
  assert (E : map fst (flat_table qtable_data) = map fst qtable_data).
  { unfold flat_table. rewrite map_map. reflexivity. }
  assert (Hsh : resolved_shape (flat_table qtable_data) grid_shape
                = resolved_shape qtable_data grid_shape).
  { unfold resolved_shape. now rewrite E. }
  rewrite Hsh.
  destruct (np_zeros (resolved_shape qtable_data grid_shape)) as [g|e]; cbn [bind];
    [apply paint_flat_table|reflexivity].
Qed.

(** ** The heatmap *)

Section HeatmapFacts.


Lemma range_In n z : In z (range n) <-> 0 <= z < n.
Proof.
  unfold range. rewrite in_map_iff. split.
  - intros (k & <- & Hk). apply in_seq in Hk. lia.
  - intros H. exists (Z.to_nat z). split; [lia|]. apply in_seq. lia.
Qed.

Lemma range_length n : length (range n) = Z.to_nat n.
Proof. unfold range. now rewrite length_map, length_seq. Qed.

Lemma range_NoDup n : NoDup (range n).
Proof.
  unfold range. apply NoDup_fmap_2; [intros a b; apply Nat2Z.inj|apply NoDup_seq].
Qed.



Lemma given_true o : given o = true <-> exists f, o = Some f /\ f <> ""%string.
Proof.
  destruct o as [f|]; simpl.
  - destruct (String.eqb_spec f "") as [->|Hne]; simpl.
    + split; [discriminate|]. intros (f & [= <-] & H). contradiction.
    + split; [|reflexivity]. intros _. now exists f.
  - split; [discriminate|]. intros (f & [=] & _).
Qed.


End HeatmapFacts.





(** * Further properties of the knight's-tour script *)

(** ** The board and the marks *)

Section BoardFacts.

Lemma square_color_mod x y :
  (if (x + y) mod 2 =? 0 then "#F0D9B5"%string else "#B58863"%string)
  = square_color x y.
Proof.
  unfold square_color.
  destruct (Z.even (x + y)) eqn:E.
  - apply Z.even_spec in E. destruct E as [k ->].
    replace (2 * k) with (k * 2) by lia. now rewrite Z.mod_mul.
  - rewrite <- Z.negb_odd in E. apply negb_false_iff, Z.odd_spec in E.
    destruct E as [k ->]. replace (2 * k + 1) with (1 + k * 2) by lia.
    now rewrite Z.mod_add.
Qed.

Lemma draw_board_In N a :
  In a (draw_board N) <->
  exists x y, 0 <= x < N /\ 0 <= y < N /\ a = Rectangle (x, y) (square_color x y).
Proof.
  unfold draw_board. rewrite in_flat_map. split.
  - intros (x & Hx & Hin). apply in_map_iff in Hin as (y & <- & Hy).
    apply range_In in Hx. apply range_In in Hy.
    exists x, y. now rewrite square_color_mod.
  - intros (x & y & Hx & Hy & ->). exists x. split; [now apply range_In|].
    apply in_map_iff. exists y. split; [now rewrite square_color_mod|now apply range_In].
Qed.

Lemma draw_board_length N :
  length (draw_board N) = (Z.to_nat N * Z.to_nat N)%nat.
Proof.
  unfold draw_board.
  assert (H : forall (xs ys : list Z) (f : Z -> Z -> artist),
            length (flat_map (fun x => map (f x) ys) xs) = (length xs * length ys)%nat).
  { intros xs ys f. induction xs as [|x xs IH]; [reflexivity|].
    cbn [flat_map]. rewrite length_app, length_map, IH. simpl. lia. }
  rewrite (H (range N) (range N)
             (fun x y => Rectangle (x, y)
                (if (x + y) mod 2 =? 0 then "#F0D9B5"%string else "#B58863"%string))).
  now rewrite range_length.
Qed.

Lemma draw_board_NoDup N : NoDup (draw_board N).
Proof.
  unfold draw_board.
  assert (H : forall (xs ys : list Z) (c : Z -> Z -> string),
            NoDup xs -> NoDup ys ->
            NoDup (flat_map (fun x => map (fun y => Rectangle (x, y) (c x y)) ys) xs)).
  { intros xs ys c Hx Hy. induction Hx as [|x xs Hnotin Hx IH]; [constructor|].
    cbn [flat_map]. apply NoDup_app. split; [|split; [|exact IH]].
    - apply NoDup_fmap_2; [|exact Hy]. intros y y' [=]. assumption.
    - intros a. rewrite !list_elem_of_In, in_map_iff, in_flat_map.
      intros (y & <- & _) (x' & Hx' & Hin). apply in_map_iff in Hin as (y' & [= <- _] & _).
      apply Hnotin. now apply list_elem_of_In. }
  apply H; apply range_NoDup.
Qed.

Lemma filter_rectangle_path path : forall i,
  List.filter is_rectangle (path_artists i path) = [].
Proof.
  induction path as [|p0 path IH]; intros i; [reflexivity|].
  destruct path as [|p1 rest]; [reflexivity|].
  rewrite path_artists_cons. cbn [List.filter is_rectangle arrow_between].
  rewrite List.filter_app, IH. destruct (0 <? i); reflexivity.
Qed.

Lemma filter_mark_path path : forall i,
  List.filter is_mark (path_artists i path) = [].
Proof.
  induction path as [|p0 path IH]; intros i; [reflexivity|].
  destruct path as [|p1 rest]; [reflexivity|].
  rewrite path_artists_cons. cbn [List.filter is_mark arrow_between].
  rewrite List.filter_app, IH. destruct (0 <? i); reflexivity.
Qed.

Lemma filter_all (f : artist -> bool) l :
  (forall a, In a l -> f a = true) -> List.filter f l = l.
Proof.
  induction l as [|a l IH]; intros H; [reflexivity|]. simpl.
  rewrite (H a) by now left. f_equal. apply IH. intros b Hb. apply H. now right.
Qed.

Lemma filter_rectangle_end path : List.filter is_rectangle (end_artists path) = [].
Proof.
  unfold end_artists. destruct (1 <? Z.of_nat (length path)); [|reflexivity].
  destruct (list.last path); reflexivity.
Qed.

Lemma rectangles_tour data :
  List.filter is_rectangle (tour_artists data) = draw_board (board_size data).
Proof.
  unfold tour_artists.
  rewrite !List.filter_app, filter_rectangle_path, filter_rectangle_end.
  cbn [List.filter is_rectangle]. rewrite !List.app_nil_r.
  apply filter_all. intros a Ha.
  apply draw_board_In in Ha as (x & y & _ & _ & ->). reflexivity.
Qed.

End BoardFacts.

(** X10: the squares drawn are exactly those of the board, one for each
    [(x, y)] with [0 <= x, y < board_size], none twice and none
    elsewhere: [board_size] squared of them, and none at all for a size
    of zero or less.  A square is light when [x + y] is even and dark
    otherwise, so that squares side by side never have the same
    colour. *)
Theorem board_is_a_chessboard (data : tour) :
  exists ax,
    draw_tour data = Ok ax /\
    (forall xy c,
       In (Rectangle xy c) ax <->
       0 <= fst xy < board_size data /\ 0 <= snd xy < board_size data /\
       c = square_color (fst xy) (snd xy)) /\
    NoDup (List.filter is_rectangle ax) /\
    length (List.filter is_rectangle ax)
      = (Z.to_nat (board_size data) * Z.to_nat (board_size data))%nat /\
    (forall x y, square_color (x + 1) y <> square_color x y /\
                 square_color x (y + 1) <> square_color x y).
Proof.
  exists (tour_artists data). split; [apply draw_tour_ok|].
  split; [|split; [|split]].
  - intros xy c.
    assert (E : In (Rectangle xy c) (tour_artists data)
                <-> In (Rectangle xy c) (List.filter is_rectangle (tour_artists data))).
    { rewrite filter_In. cbn [is_rectangle]. tauto. }
    rewrite E, rectangles_tour, draw_board_In. destruct xy as [x y]. cbn [fst snd]. split.
    + intros (x' & y' & Hx & Hy & [= -> -> ->]). tauto.
    + intros (Hx & Hy & ->). now exists x, y.
  - rewrite rectangles_tour. apply draw_board_NoDup.
  - rewrite rectangles_tour. apply draw_board_length.
  - intros x y. unfold square_color.
    replace (x + 1 + y) with (Z.succ (x + y)) by lia.
    replace (x + (y + 1)) with (Z.succ (x + y)) by lia.
    rewrite Z.even_succ, <- Z.negb_even. destruct (Z.even (x + y)); split; discriminate.
Qed.

(** X11: the start is marked "S" exactly once, in the cell named by
    [start] (whether or not the path begins there); the end is marked
    "E" exactly when the path has two cells or more, in its last cell;
    no other mark is drawn. *)
Theorem start_and_end_marks (data : tour) :
  exists ax,
    draw_tour data = Ok ax /\
    List.filter is_mark ax
    = mark (start data) "S" "darkgreen"
      :: match list.last (path data) with
         | Some p => if 1 <? Z.of_nat (length (path data))
                     then [mark p "E" "darkred"] else []
         | None => []
         end.
Proof.
  exists (tour_artists data). split; [apply draw_tour_ok|].
  unfold tour_artists. rewrite !List.filter_app, filter_mark_path, filter_board by reflexivity.
  cbn [List.filter is_mark app]. unfold mark. f_equal.
  unfold end_artists. destruct (list.last (path data)) as [p|];
    destruct (1 <? Z.of_nat (length (path data))); reflexivity.
Qed.

(** ** The two image files *)

Section HqPath.











End HqPath.





(** ** The exit status *)


(** ** The percentage of a complete and of an empty tour *)

Section Percentages.

Lemma div_eucl_mul m k : Z.div_eucl (Z.pos m * k) (Z.pos m) = (k, 0).
Proof.
  pose proof (Z.div_mul k (Z.pos m) ltac:(lia)) as Hq.
  pose proof (Z.mod_mul k (Z.pos m) ltac:(lia)) as Hr.
  rewrite (Z.mul_comm k) in Hq, Hr. unfold Z.div, Z.modulo in Hq, Hr.
  destruct (Z.div_eucl (Z.pos m * k) (Z.pos m)) as [q r]. congruence.
Qed.

(** A double divided by itself is one. *)
Lemma SFdiv_self s m e :
  SFdiv prec emax (S754_finite s m e) (S754_finite s m e)
  = S754_finite false 4503599627370496 (-52).
Proof.
  cbn [SFdiv]. unfold SFdiv_core_binary.
  replace (Zdigits2 (Z.pos m) + e - (Zdigits2 (Z.pos m) + e)) with 0 by lia.
  rewrite Z.sub_diag.
  change (Z.min (fexp prec emax 0) 0) with (-53).
  change (0 - -53) with 53.
  rewrite Z.shiftl_mul_pow2 by lia.
  rewrite div_eucl_mul, Bool.xorb_nilpotent. cbv beta iota.
  replace (new_location (Z.pos m) 0) with loc_Exact
    by (unfold new_location, new_location_even, new_location_odd;
        destruct (Z.even (Z.pos m)); reflexivity).
  vm_compute. reflexivity.
Qed.

Lemma pct_double_complete n :
  n <> 0 -> Z.abs n < 2 ^ 53 -> format_1f (pct_double n n) = "100.0"%string.
Proof.
  intros Hn Hlt. unfold pct_double.
  destruct (float_of_int_finite n Hn Hlt) as (m & e & -> & _).
  rewrite SFdiv_self. vm_compute. reflexivity.
Qed.

Lemma pct_double_none total :
  total <> 0 -> Z.abs total < 2 ^ 53 ->
  format_1f (pct_double 0 total) = if total <? 0 then "-0.0"%string else "0.0"%string.
Proof.
  intros Hn Hlt. unfold pct_double.
  destruct (float_of_int_finite total Hn Hlt) as (m & e & -> & _).
  destruct (total <? 0); vm_compute; reflexivity.
Qed.

End Percentages.

(** X15: when every square has been visited, [visited_squares] equal to
    a non-zero [total_squares] below [2^53] in absolute value, the title
    reports exactly "100.0": the quotient of a double by itself is
    exact. *)
Theorem complete_tour_is_100_percent (data : tour) (output_path : string) :
  total_squares data <> 0 ->
  Z.abs (total_squares data) < 2 ^ 53 ->
  visited_squares data = total_squares data ->
  exists fig,
    visualize_knight_tour data output_path = Ok fig /\
    title fig
    = title_text (board_size data) (visited_squares data) (total_squares data) "100.0".
Proof.
  intros Ht Hlt Hv. rewrite visualize_knight_tour_ok by exact Ht.
  eexists. split; [reflexivity|]. cbn [title]. rewrite Hv.
  now rewrite pct_double_complete.
Qed.

Lemma complete_tour_is_100_percent_witness :
  exists fig,
    visualize_knight_tour (mk_tour 5 (0, 0) (row_by_row 5 25) 25 25) "tour.png" = Ok fig /\
    title fig = title_text 5 25 25 "100.0".
Proof.
  apply (complete_tour_is_100_percent (mk_tour 5 (0, 0) (row_by_row 5 25) 25 25) "tour.png");
    simpl; lia.
Defined.

(** X16: when no square has been visited the title reports "0.0" for a
    positive [total_squares] and "-0.0" for a negative one (the quotient
    is then the negative zero). *)
Theorem empty_tour_is_0_percent (data : tour) (output_path : string) :
  total_squares data <> 0 ->
  Z.abs (total_squares data) < 2 ^ 53 ->
  visited_squares data = 0 ->
  exists fig,
    visualize_knight_tour data output_path = Ok fig /\
    title fig
    = title_text (board_size data) 0 (total_squares data)
        (if total_squares data <? 0 then "-0.0"%string else "0.0"%string).
Proof.
  intros Ht Hlt Hv. rewrite visualize_knight_tour_ok by exact Ht.
  eexists. split; [reflexivity|]. cbn [title]. rewrite Hv.
  now rewrite pct_double_none.
Qed.

Lemma empty_tour_is_0_percent_witness :
  exists fig,
    visualize_knight_tour (mk_tour 8 (0, 0) [] 0 64) "tour.png" = Ok fig /\
    title fig = title_text 8 0 64 "0.0".
Proof.
  apply (empty_tour_is_0_percent (mk_tour 8 (0, 0) [] 0 64) "tour.png"); simpl; lia.
Defined.
